(** * Topologically ordered commits: a shallow embedding of
    [topo_order_commits.py] and the properties of its graph builder,
    sequencer and renderer.

    Modelling conventions.
    - A commit identifier is a [string], a sequence of characters with codes
      below 256; Python's order on identifiers, used by [sorted] and
      [list.sort], is the lexicographic order on character codes, here
      [String.le].
    - A Python [dict] keyed by identifiers is a [gmap string _] and a Python
      [set] of identifiers is a [gset string].  The program looks keys up,
      and where it iterates ([graph.items()] and [in_degree.items()] in
      [topo_sort], the sets of children in [ordered_print]) it counts or
      sorts what it gets; keys and elements are unique, so the iteration
      order is never observable.
    - Functions that can raise return a [result]; the two [while] loops are
      run by a fuel-indexed iterator, [None] meaning that the fuel ran out,
      and the fuel they are given is shown to be sufficient.
    - The file system is read only through the object reader, the branch
      enumerator and [os.path.isdir]; they are parameters of the model. *)

From Stdlib Require Import ZArith String Ascii List.
From stdpp Require Import base gmap sets list strings sorting relations.

Local Open Scope Z_scope.
#[local] Set Warnings "-clear-no-such-hyp".

(** ** Results of fallible computations *)

Inductive exn : Type :=
  | IndexError                (* [line.split()[1]] out of range *)
  | KeyError (key : string)   (* [in_degree[parent]] on a missing key *)
  | DecodeError.              (* any failure of the object reader other than
                                 [FileNotFoundError] *)

Inductive result (A : Type) : Type :=
  | Returns (a : A)
  | Raises (e : exn).
Arguments Returns {A} a.
Arguments Raises {A} e.

#[global] Instance exn_eq_dec : EqDecision exn.
Proof. solve_decision. Defined.

#[global] Instance result_eq_dec `{EqDecision A} : EqDecision (result A).
Proof. solve_decision. Defined.

(** ** A [while] loop with an explicit body *)

Inductive step_result (S A : Type) : Type :=
  | Continue (s : S)          (* next iteration *)
  | Break (a : A)             (* loop condition false: the value returned *)
  | Throw (e : exn).          (* exception escaping the body *)
Arguments Continue {S A} s.
Arguments Break {S A} a.
Arguments Throw {S A} e.

(** [None] only when the fuel runs out before the loop ends. *)
Fixpoint while {S A : Type} (body : S → step_result S A)
    (fuel : nat) (s : S) : option (result A) :=
  match fuel with
  | O => None
  | Datatypes.S fuel' =>
      match body s with
      | Continue s' => while body fuel' s'
      | Break a => Some (Returns a)
      | Throw e => Some (Raises e)
      end
  end.

(** ** Data model *)

Record CommitNode : Type := mkCommitNode {
  commit_hash : string;
  parents : list string;      (* [set()] until assigned, then a list *)
  children : gset string
}.

(** [CommitNode(commit_hash)] *)
Definition new_node (h : string) : CommitNode :=
  {| commit_hash := h; parents := []; children := ∅ |}.

Definition set_parents (ps : list string) (n : CommitNode) : CommitNode :=
  {| commit_hash := commit_hash n; parents := ps; children := children n |}.

Definition add_child (c : string) (n : CommitNode) : CommitNode :=
  {| commit_hash := commit_hash n; parents := parents n;
     children := {[c]} ∪ children n |}.

#[global] Instance CommitNode_eq_dec : EqDecision CommitNode.
Proof. solve_decision. Defined.

Abbreviation graph := (gmap string CommitNode).

(** ** The object reader and the parsing of [parent] header lines *)

(** What lies behind an identifier [h] in [.git/objects], at the path
    [objects/h[:2]/h[2:]]: nothing (the key is absent from the store, [open]
    raises [FileNotFoundError]), an object that decompresses and decodes to
    lines, or an object whose reading fails in another way ([zlib.error],
    [UnicodeDecodeError], [IsADirectoryError], ...), which the builder does
    not catch. *)
Inductive stored : Type :=
  | Lines (lines : list string)
  | Corrupt.

Abbreviation object_store := (gmap string stored).

Inductive read_result : Type :=
  | Decompressed (lines : list string)
  | FileNotFoundError
  | ReadFailure.

Definition decompress_git_object (store : object_store) (h : string)
    : read_result :=
  match store !! h with
  | None => FileNotFoundError
  | Some (Lines ls) => Decompressed ls
  | Some Corrupt => ReadFailure
  end.

(** [str.isspace] for the characters with code below 256. *)
Definition is_space (c : ascii) : bool :=
  let n := nat_of_ascii c in
  ((9 <=? n)%nat && (n <=? 13)%nat) || ((28 <=? n)%nat && (n <=? 32)%nat)
  || (n =? 133)%nat || (n =? 160)%nat.

(** [s.split()]: maximal runs of non-space characters. *)
Fixpoint split_from (tok : string) (s : string) : list string :=
  match s with
  | EmptyString => if decide (tok = "") then [] else [tok]
  | String c s' =>
      if is_space c
      then (if decide (tok = "") then split_from "" s'
            else tok :: split_from "" s')
      else split_from (tok +:+ String c "") s'
  end.

Definition split (s : string) : list string := split_from "" s.

Definition is_parent_line (line : string) : bool :=
  String.prefix "parent " line.

(** The [for line in lines] loop of [build_commit_graph]. *)
Fixpoint parent_hashes_of (lines : list string) : result (list string) :=
  match lines with
  | [] => Returns []
  | line :: rest =>
      if is_parent_line line then
        match split line !! 1%nat with
        | None => Raises IndexError
        | Some parent_hash =>
            match parent_hashes_of rest with
            | Returns hs => Returns (parent_hash :: hs)
            | Raises e => Raises e
            end
        end
      else parent_hashes_of rest
  end.

(** ** Part 3: the commit graph builder *)

Record build_state : Type := mkBuild {
  b_graph : graph;
  b_visited : gset string;
  b_stack : list string       (* top of the Python stack first *)
}.

(** [if h not in graph: graph[h] = CommitNode(h)] *)
Definition ensure_node (h : string) (g : graph) : graph :=
  match g !! h with
  | Some _ => g
  | None => <[h := new_node h]> g
  end.

(** One round of [for parent_hash in parent_hashes]. *)
Definition link_parent (commit : string) (acc : graph * list string)
    (parent_hash : string) : graph * list string :=
  (alter (add_child commit) parent_hash (ensure_node parent_hash acc.1),
   parent_hash :: acc.2).

Definition build_step (store : object_store) (st : build_state)
    : step_result build_state graph :=
  match b_stack st with
  | [] => Break (b_graph st)
  | commit :: stack =>
      if decide (commit ∈ b_visited st) then
        Continue (mkBuild (b_graph st) (b_visited st) stack)
      else
        let visited := {[commit]} ∪ b_visited st in
        let g := ensure_node commit (b_graph st) in
        match decompress_git_object store commit with
        | FileNotFoundError => Continue (mkBuild g visited stack)
        | ReadFailure => Throw DecodeError
        | Decompressed lines =>
            match parent_hashes_of lines with
            | Returns parent_hashes =>
                let g := alter (set_parents parent_hashes) commit g in
                let gs := foldl (link_parent commit) (g, stack) parent_hashes in
                Continue (mkBuild gs.1 visited gs.2)
            | Raises e => Throw e
            end
        end
  end.

(** [stack = [commit_hash for _, commit_hash in branches_list]]; Python pops
    from the end, so the top-first stack is the reversed list. *)
Definition build_init (branches_list : list (string * string)) : build_state :=
  mkBuild ∅ ∅ (reverse (branches_list.*2)).

(** Number of pushes an object can cause. *)
Definition pushes_of (o : stored) : nat :=
  match o with
  | Lines ls => length (filter (λ l, is_parent_line l = true) ls)
  | Corrupt => O
  end.

Definition store_weight (m : object_store) : nat :=
  sum_list ((pushes_of ∘ snd) <$> map_to_list m).

Definition unvisited (store : object_store) (visited : gset string)
    : object_store :=
  filter (λ kv, kv.1 ∉ visited) store.

Definition build_measure (store : object_store) (st : build_state) : nat :=
  (length (b_stack st) + store_weight (unvisited store (b_visited st)))%nat.

Definition build_fuel (store : object_store)
    (branches_list : list (string * string)) : nat :=
  Datatypes.S (build_measure store (build_init branches_list)).

Definition build_commit_graph (store : object_store)
    (branches_list : list (string * string)) : option (result graph) :=
  while (build_step store) (build_fuel store branches_list)
    (build_init branches_list).

(** ** Part 4: the topological sequencer *)

(** [sorted(l)] and [l.sort()] on identifiers. *)
Definition sorted (l : list string) : list string := merge_sort String.le l.

Record topo_state : Type := mkTopo {
  t_in_degree : gmap string Z;
  t_next_choices : list string;
  t_order : list string;
  t_current : option string
}.

(** [l.remove(x)]: the first occurrence goes. *)
Fixpoint remove_first (x : string) (l : list string) : list string :=
  match l with
  | [] => []
  | y :: l' => if decide (x = y) then l' else y :: remove_first x l'
  end.

(** [node.parents[0]] of the node of [current], when there is one. *)
Definition preferred (g : graph) (current : option string) : option string :=
  match current with
  | None => None
  | Some c =>
      match g !! c with
      | None => None
      | Some node => head (parents node)
      end
  end.

(** The selection of [chosen]; [None] when [next_choices] is empty. *)
Definition select (g : graph) (current : option string)
    (next_choices : list string) : option (string * list string) :=
  match next_choices with
  | [] => None
  | first :: rest =>
      match preferred g current with
      | Some p =>
          if decide (p ∈ next_choices)
          then Some (p, remove_first p next_choices)
          else Some (first, rest)
      | None => Some (first, rest)
      end
  end.

(** [for parent in node.parents: in_degree[parent] -= 1; ...] *)
Fixpoint release (ps : list string) (in_degree : gmap string Z)
    (next_choices : list string) : result (gmap string Z * list string) :=
  match ps with
  | [] => Returns (in_degree, next_choices)
  | parent :: ps' =>
      match in_degree !! parent with
      | None => Raises (KeyError parent)
      | Some d =>
          let d' := d - 1 in
          release ps' (<[parent := d']> in_degree)
            (if decide (d' = 0) then next_choices ++ [parent]
             else next_choices)
      end
  end.

Definition topo_step (g : graph) (st : topo_state)
    : step_result topo_state (list string) :=
  match select g (t_current st) (t_next_choices st) with
  | None => Break (t_order st)
  | Some (chosen, next_choices) =>
      let order := t_order st ++ [chosen] in
      match g !! chosen with
      | None =>
          Continue (mkTopo (t_in_degree st) (sorted next_choices) order
                      (Some chosen))
      | Some node =>
          match release (parents node) (t_in_degree st) next_choices with
          | Raises e => Throw e
          | Returns (in_degree, next_choices) =>
              Continue (mkTopo in_degree (sorted next_choices) order
                          (Some chosen))
          end
      end
  end.

Definition topo_init (g : graph) : topo_state :=
  let in_degree := (λ node, Z.of_nat (size (children node))) <$> g in
  mkTopo in_degree
    (sorted (map_to_list (filter (λ kv, kv.2 = 0) in_degree)).*1) [] None.

(** [branch_heads] is a parameter of the Python function and is not read. *)
Definition topo_sort (g : graph) (branch_heads : list string)
    : option (result (list string)) :=
  while (topo_step g) (Datatypes.S (size g)) (topo_init g).

(** ** Part 5: the renderer; the lines printed, in order *)

Definition join (sep : string) (l : list string) : string :=
  String.concat sep l.

Definition commit_line (head_to_branches : gmap string (list string))
    (commit : string) : string :=
  match head_to_branches !! commit with
  | Some names => commit +:+ " " +:+ join " " (sorted names)
  | None => commit
  end.

(** The lines printed inside [if i < len(topo_ordered_commits) - 1]. *)
Definition sticky (g : graph) (commit next_commit : string) : list string :=
  match g !! commit with
  | None => []
  | Some node =>
      if decide (parents node ≠ [] ∧ next_commit ∉ parents node) then
        let sticky_end := join " " (sorted (parents node)) +:+ "=" in
        let sticky_start :=
          match g !! next_commit with
          | None => "="
          | Some next_node =>
              if decide (children next_node ≠ ∅)
              then "=" +:+ join " " (sorted (elements (children next_node)))
              else "="
          end in
        [sticky_end; ""; sticky_start]
      else []
  end.

(** The lines printed by iteration [i] of the [for] loop. *)
Definition print_at (g : graph) (order : list string)
    (head_to_branches : gmap string (list string)) (i : nat) : list string :=
  match order !! i with
  | None => []
  | Some commit =>
      commit_line head_to_branches commit ::
      (if decide (i < length order - 1)%nat then
         match order !! (i + 1)%nat with
         | Some next_commit => sticky g commit next_commit
         | None => []
         end
       else [])
  end.

Definition ordered_print (g : graph) (order : list string)
    (head_to_branches : gmap string (list string)) : list string :=
  flat_map (print_at g order head_to_branches) (seq 0 (length order)).

(** ** The driver *)

(** [head_to_branches.setdefault(commit, []).append(branch)] for each pair. *)
Definition head_to_branches (branches : list (string * string))
    : gmap string (list string) :=
  foldl (λ m bc, <[bc.2 := default [] (m !! bc.2) ++ [bc.1]]> m) ∅ branches.

(** Parts 3 to 5 of [topo_order_commits] on the branches and the object store
    found in the repository: the lines written to standard output. *)
Definition render (store : object_store) (branches : list (string * string))
    : option (result (list string)) :=
  match build_commit_graph store branches with
  | None => None
  | Some (Raises e) => Some (Raises e)
  | Some (Returns commit_graph) =>
      let branch_heads := elements (list_to_set branches.*2 : gset string) in
      match topo_sort commit_graph branch_heads with
      | None => None
      | Some (Raises e) => Some (Raises e)
      | Some (Returns order) =>
          Some (Returns
                  (ordered_print commit_graph order (head_to_branches branches)))
      end
  end.

(** An absolute directory path, components from the root; [[]] is the root,
    the only path equal to its [os.path.dirname]. *)
Abbreviation path := (list string).

Record world : Type := mkWorld {
  cwd : path;                               (* [os.getcwd()] *)
  isdir : path → bool;                      (* [os.path.isdir] *)
  branch_files : path → list (string * string);  (* [get_branches] *)
  objects : path → object_store             (* [<git_dir>/objects] *)
}.

(** [os.path.isdir('.git')], relative to the working directory. *)
Definition in_git_directory (w : world) : bool := isdir w (cwd w ++ [".git"]).

(** The [while current_dir != os.path.dirname(current_dir)] loop, on the
    reversed path; [None] is [sys.exit(1)]. *)
Fixpoint find_git_up (is_dir : path → bool) (rev_dir : list string)
    : option path :=
  match rev_dir with
  | [] => None
  | _ :: up =>
      let git_dir := reverse rev_dir ++ [".git"] in
      if is_dir git_dir then Some git_dir else find_git_up is_dir up
  end.

Definition get_git_directory (w : world) : option path :=
  find_git_up (isdir w) (reverse (cwd w)).

Inductive outcome : Type :=
  | Exit (code : Z) (stdout : list string) (stderr : string)
  | Uncaught (e : exn)        (* traceback on standard error, status 1 *)
  | NoAnswer.                 (* fuel exhausted; shown not to happen *)

Definition not_a_repository : string := "Not inside a Git repository".

Definition topo_order_commits (w : world) : outcome :=
  if negb (in_git_directory w) then Exit 1 [] not_a_repository
  else
    match get_git_directory w with
    | None => Exit 1 [] not_a_repository
    | Some git_path =>
        match render (objects w git_path) (branch_files w git_path) with
        | Some (Returns lines) => Exit 0 lines ""
        | Some (Raises e) => Uncaught e
        | None => NoAnswer
        end
    end.

(** * Vocabulary of the properties *)

(** ** What the builder records *)

(** The parents the builder records for an identifier once it is expanded:
    those parsed from its object, none when the object is absent. *)
Definition recorded_parents (store : object_store) (h : string)
    : result (list string) :=
  match decompress_git_object store h with
  | FileNotFoundError => Returns []
  | ReadFailure => Raises DecodeError
  | Decompressed lines => parent_hashes_of lines
  end.

(** The list [recorded_parents] returns, [[]] when it raises. *)
Definition parents_in (store : object_store) (h : string) : list string :=
  match recorded_parents store h with
  | Returns ps => ps
  | Raises _ => []
  end.

(** Identifiers reachable from the heads through recorded parents. *)
Inductive reachable (store : object_store) (heads : list string)
    : string → Prop :=
  | reach_head h : h ∈ heads → reachable store heads h
  | reach_parent x ps p :
      reachable store heads x → recorded_parents store x = Returns ps →
      p ∈ ps → reachable store heads p.

(** The node of [h] when exactly the identifiers of [visited] are expanded. *)
Definition expected_node (store : object_store) (visited : gset string)
    (h : string) : CommitNode :=
  {| commit_hash := h;
     parents := if decide (h ∈ visited) then parents_in store h else [];
     children := filter (λ x, h ∈ parents_in store x) visited |}.

(** Invariant of the builder loop: everything visited has a readable record,
    its parents are visited or still on the stack, so are the heads; nothing
    unreachable is met; the graph holds exactly the visited identifiers and
    their parents, each with its [expected_node]. *)
Record build_inv (store : object_store) (heads : list string)
    (st : build_state) : Prop := {
  bi_good : ∀ h, h ∈ b_visited st →
    recorded_parents store h = Returns (parents_in store h);
  bi_closed : ∀ h p, h ∈ b_visited st → p ∈ parents_in store h →
    p ∈ b_visited st ∨ p ∈ b_stack st;
  bi_heads : ∀ h, h ∈ heads → h ∈ b_visited st ∨ h ∈ b_stack st;
  bi_reach : ∀ h, h ∈ b_visited st ∨ h ∈ b_stack st →
    reachable store heads h;
  bi_dom : ∀ h, h ∈ dom (b_graph st) ↔
    h ∈ b_visited st ∨ ∃ x, x ∈ b_visited st ∧ h ∈ parents_in store x;
  bi_node : ∀ h n, b_graph st !! h = Some n →
    n = expected_node store (b_visited st) h
}.

(** ** Shape of a commit graph *)

(** [p] occurs in the parents list of the node of [x]. *)
Definition parent_edge (g : graph) (x p : string) : Prop :=
  ∃ n, g !! x = Some n ∧ p ∈ parents n.

(** [graph[x].parents], empty when [x] is not a key. *)
Definition parents_at (g : graph) (x : string) : list string :=
  match g !! x with
  | Some n => parents n
  | None => []
  end.

(** [graph[x].children], empty when [x] is not a key. *)
Definition children_at (g : graph) (x : string) : gset string :=
  match g !! x with
  | Some n => children n
  | None => ∅
  end.

(** Closed under parents and children, and the children sets are the
    converse of the parents lists. *)
Record well_formed (g : graph) : Prop := {
  wf_parents_closed : ∀ x n p, g !! x = Some n → p ∈ parents n → p ∈ dom g;
  wf_children_closed : ∀ x n c, g !! x = Some n → c ∈ children n → c ∈ dom g;
  wf_children : ∀ p n x,
    g !! p = Some n → (x ∈ children n ↔ parent_edge g x p)
}.

(** Every entry of every parents list is a key. *)
Definition parents_closed (g : graph) : Prop :=
  ∀ x n p, g !! x = Some n → p ∈ parents n → p ∈ dom g.

(** No commit is its own proper ancestor. *)
Definition acyclic (g : graph) : Prop := Irreflexive (tc (parent_edge g)).

(** No parents list repeats an entry. *)
Definition parents_nodup (g : graph) : Prop :=
  ∀ x n, g !! x = Some n → NoDup (parents n).

(** ** The sequencer loop *)

(** Number of occurrences of [p] in [l]. *)
Definition count_in (p : string) (l : list string) : nat :=
  length (filter (λ y, y = p) l).

(** Every parent entry of every emitted commit, with multiplicity: one
    decrement of [in_degree] each. *)
Definition released (g : graph) (order : list string) : list string :=
  order ≫= parents_at g.

(** The counter of [p] once [order] has been emitted: its number of children
    minus the decrements made so far. *)
Definition expected_degree (g : graph) (order : list string) (p : string)
    : option Z :=
  (λ n, Z.of_nat (size (children n)) - Z.of_nat (count_in p (released g order)))
    <$> g !! p.

(** Invariant of the sequencer loop: the counters are the expected ones;
    emitted and ready commits are pairwise distinct and are exactly the
    keys whose counter is at most zero; the ready list is sorted; [current] is
    the commit emitted last. *)
Record topo_inv (g : graph) (st : topo_state) : Prop := {
  ti_degree : ∀ p, t_in_degree st !! p = expected_degree g (t_order st) p;
  ti_nodup : NoDup (t_order st ++ t_next_choices st);
  ti_ready : ∀ p, p ∈ t_order st ++ t_next_choices st ↔
    ∃ d, t_in_degree st !! p = Some d ∧ d ≤ 0;
  ti_sorted : StronglySorted String.le (t_next_choices st);
  ti_current : t_current st = last (t_order st)
}.

(** Keys not emitted yet. *)
Definition topo_measure (g : graph) (st : topo_state) : nat :=
  (size g - length (t_order st))%nat.

(** The states met at the head of the sequencer loop. *)
Inductive topo_reachable (g : graph) : topo_state → Prop :=
  | topo_reach_init : topo_reachable g (topo_init g)
  | topo_reach_step st st' :
      topo_reachable g st → topo_step g st = Continue st' →
      topo_reachable g st'.

(** The state after the first iteration, for concrete graphs. *)
Definition after_first_step (g : graph) : topo_state :=
  match topo_step g (topo_init g) with
  | Continue st => st
  | _ => topo_init g
  end.

(** Every child comes before its parent. *)
Definition ancestry_ordered (g : graph) (order : list string) : Prop :=
  ∀ i j x p, order !! i = Some x → order !! j = Some p →
    parent_edge g x p → (i < j)%nat.

(** ** The renderer and the driver *)

(** The three lines of a sticky end between [commit] and [next_commit]. *)
Definition sticky_lines (g : graph) (commit next_commit : string)
    : list string :=
  [join " " (sorted (parents_at g commit)) +:+ "=";
   "";
   "=" +:+ join " " (sorted (elements (children_at g next_commit)))].

(** The rule of C4 in the words of the claim: the three lines whenever the
    next commit is not among the parents, nothing otherwise. *)
Definition sticky_rule_as_claimed (g : graph) (order : list string)
    (h2b : gmap string (list string)) : Prop :=
  ∀ i commit next_commit,
    order !! i = Some commit → order !! (i + 1)%nat = Some next_commit →
    (next_commit ∉ parents_at g commit →
       print_at g order h2b i
       = commit_line h2b commit :: sticky_lines g commit next_commit)
    ∧ (next_commit ∈ parents_at g commit →
       print_at g order h2b i = [commit_line h2b commit]).

(** The branch names that point at [c], in enumeration order. *)
Definition names_of (c : string) (branches : list (string * string))
    : list string :=
  (filter (λ bc, bc.2 = c) branches).*1.

(** The lines that reach standard output. *)
Definition printed (r : option (result (list string))) : list string :=
  match r with
  | Some (Returns lines) => lines
  | _ => []
  end.

(** A [.git] directory exists in the working directory or in one of its
    ancestors. *)
Definition git_discoverable (w : world) : Prop :=
  ∃ k, (k ≤ length (cwd w))%nat ∧ isdir w (take k (cwd w) ++ [".git"]) = true.

(** ** Concrete repositories *)

(** Identifiers have three characters or more: the object of [h] is the file
    [objects/h[:2]/h[2:]]. *)

(** The graph the builder returns, for stores on which it does return. *)
Definition graph_of (store : object_store) (branches : list (string * string))
    : graph :=
  match build_commit_graph store branches with
  | Some (Returns g) => g
  | _ => ∅
  end.

(** A merge [m01] of [z01] (first parent) and [a01], both children of the
    root [r01]; one branch. *)
Definition merge_store : object_store :=
  {[ "m01" := Lines ["tree t"; "parent z01"; "parent a01"; "author x"; "";
                     "merge"];
     "z01" := Lines ["tree t"; "parent r01"];
     "a01" := Lines ["tree t"; "parent r01"];
     "r01" := Lines ["tree t"; "author x"] ]}.

(** The branch of [merge_store]. *)
Definition merge_branches : list (string * string) := [("main", "m01")].

(** Generation numbers witnessing that the merge graph has no cycle. *)
Definition merge_rank (h : string) : nat :=
  if decide (h = "m01") then 2%nat
  else if decide (h = "r01") then 0%nat else 1%nat.

(** [merge_store] without the object of the root [r01]. *)
Definition shallow_store : object_store := delete "r01" merge_store.

(** A store whose parent links form a cycle between [a01] and [b01]; [a01]
    also names [h01], which has no object. *)
Definition cyclic_store : object_store :=
  {[ "a01" := Lines ["parent b01"; "parent h01"];
     "b01" := Lines ["parent a01"] ]}.

(** [x01] has the parent [p01] and a message with a line that starts with
    [parent p01], which the builder reads as a second parent entry; [z01]
    has the parent [p01] too; heads [x01] and [z01]. *)
Definition duplicate_store : object_store :=
  {[ "x01" := Lines ["tree t"; "parent p01"; "author x"; "";
                     "parent p01 was rebased"];
     "z01" := Lines ["tree t"; "parent p01"];
     "p01" := Lines ["tree t"] ]}.

(** The two heads of [duplicate_store]. *)
Definition duplicate_branches : list (string * string) :=
  [("b1", "x01"); ("b2", "z01")].

(** Generation numbers for [duplicate_store]. *)
Definition duplicate_rank (h : string) : nat :=
  if decide (h = "p01") then 0%nat else 1%nat.

(** Two branches with disjoint histories. *)
Definition disjoint_store : object_store :=
  {[ "h01" := Lines ["tree t"; "parent x01"];
     "h02" := Lines ["tree t"; "parent y01"];
     "x01" := Lines ["tree t"];
     "y01" := Lines ["tree t"] ]}.

(** The two heads of [disjoint_store]. *)
Definition disjoint_branches : list (string * string) :=
  [("one", "h01"); ("two", "h02")].

(** The working directory is [/repo/src] and only [/repo/.git] exists. *)
Definition subdirectory_world : world :=
  {| cwd := ["repo"; "src"];
     isdir := λ p, bool_decide (p = ["repo"; ".git"]);
     branch_files := λ _, merge_branches;
     objects := λ _, merge_store |}.

(** A repository at [/repo], entered at its top directory. *)
Definition repository_world : world :=
  {| cwd := ["repo"];
     isdir := λ p, bool_decide (p = ["repo"; ".git"]);
     branch_files := λ _, merge_branches;
     objects := λ _, merge_store |}.

(** A cycle between [a01] and [b01] that names the absent [h01], and a
    second head [k01] whose parent is [h01] too. *)
Definition mixed_store : object_store :=
  <["k01" := Lines ["tree t"; "parent h01"]]> cyclic_store.

Definition mixed_branches : list (string * string) :=
  [("b", "a01"); ("k", "k01")].

(** Position [i] of [order] is followed by a sticky end. *)
Definition is_sticky (g : graph) (order : list string) (i : nat) : bool :=
  match order !! i, order !! (i + 1)%nat with
  | Some commit, Some next_commit =>
      bool_decide (parents_at g commit ≠ []
                   ∧ next_commit ∉ parents_at g commit)
  | _, _ => false
  end.

(** The objects of [chain] form a linear history: each commit records the
    next one as its only parent, the last one records none; no identifier
    occurs twice. *)
Definition linear_history (store : object_store) (chain : list string)
    : Prop :=
  NoDup chain
  ∧ ∀ i c, chain !! i = Some c →
      recorded_parents store c = Returns (option_list (chain !! S i)).

(** Three commits in a line, [c01] the newest. *)
Definition chain_store : object_store :=
  {[ "c01" := Lines ["tree t"; "parent c02"; "author x"];
     "c02" := Lines ["tree t"; "parent c03"];
     "c03" := Lines ["tree t"] ]}.

(** No character of [s] is white space. *)
Fixpoint no_space (s : string) : bool :=
  match s with
  | EmptyString => true
  | String c s' => negb (is_space c) && no_space s'
  end.

(** Every character of [s] is white space. *)
Fixpoint all_space (s : string) : bool :=
  match s with
  | EmptyString => true
  | String c s' => is_space c && all_space s'
  end.

(** A non-empty string without white space: what [split] returns. *)
Definition is_word (s : string) : Prop := s ≠ "" ∧ no_space s = true.

(** ** The path of an object file *)

(** [s[:n]] and [s[n:]] *)
Fixpoint take_str (n : nat) (s : string) : string :=
  match n, s with
  | Datatypes.S n', String c s' => String c (take_str n' s')
  | _, _ => ""
  end.

Fixpoint drop_str (n : nat) (s : string) : string :=
  match n, s with
  | Datatypes.S n', String _ s' => drop_str n' s'
  | _, _ => s
  end.

(** [s.endswith("/")] *)
Fixpoint ends_with_slash (s : string) : bool :=
  match s with
  | EmptyString => false
  | String c EmptyString => Ascii.eqb c "/"
  | String _ s' => ends_with_slash s'
  end.

(** One round of the loop of [posixpath.join]. *)
Definition path_join2 (path b : string) : string :=
  if String.prefix "/" b then b
  else if decide (path = "") then b
  else if ends_with_slash path then path +:+ b
  else path +:+ "/" +:+ b.

(** [os.path.join(a, *ps)] *)
Definition os_path_join (a : string) (ps : list string) : string :=
  foldl path_join2 a ps.

(** [obj_path] in [decompress_git_object]. *)
Definition object_path (git_dir commit_hash : string) : string :=
  os_path_join git_dir
    ["objects"; take_str 2 commit_hash; drop_str 2 commit_hash].

(** No character of [s] is a slash. *)
Fixpoint no_slash (s : string) : bool :=
  match s with
  | EmptyString => true
  | String c s' => negb (Ascii.eqb c "/") && no_slash s'
  end.

(** ** Reading a branch file *)

(** The characters at which a text-mode [readline] ends a line. *)
Definition is_newline (c : ascii) : bool :=
  Ascii.eqb c "010" || Ascii.eqb c "013".

(** [f.readline()] on a file opened in text mode: the first line, its
    terminator translated to a line feed. *)
Fixpoint readline (content : string) : string :=
  match content with
  | EmptyString => ""
  | String c rest =>
      if is_newline c then String "010" "" else String c (readline rest)
  end.

(** No character of [s] ends a line. *)
Fixpoint no_newline (s : string) : bool :=
  match s with
  | EmptyString => true
  | String c s' => negb (is_newline c) && no_newline s'
  end.

(** [s.lstrip()] *)
Fixpoint lstrip (s : string) : string :=
  match s with
  | EmptyString => ""
  | String c s' => if is_space c then lstrip s' else s
  end.

(** [s.rstrip()] *)
Fixpoint rstrip (s : string) : string :=
  match s with
  | EmptyString => ""
  | String c s' =>
      match rstrip s' with
      | EmptyString => if is_space c then "" else String c ""
      | r => String c r
      end
  end.

(** [s.strip()] *)
Definition strip (s : string) : string := rstrip (lstrip s).

(** [get_branch_hash], on the content of the file [branch_name]. *)
Definition get_branch_hash (content : string) : string :=
  strip (readline content).

(** ** Part 2: the branch enumerator *)

(** What [os.walk(heads_path)] yields: for each directory met, its path
    relative to [heads_path], as components, and its files, each with its
    content. *)
Abbreviation walked := (list (list string * list (string * string))).

(** [get_branches]: one pair per file, in the order of the walk; the name is
    the path of the file relative to [heads_path], with [/] between the
    components. *)
Definition get_branches (heads_is_dir : bool) (walk : walked)
    : list (string * string) :=
  if heads_is_dir then
    flat_map (λ rf, (λ fc, (join "/" (rf.1 ++ [fc.1]), get_branch_hash fc.2))
                      <$> rf.2) walk
  else [].

(** A file or directory name: not empty, no slash. *)
Definition is_name (s : string) : Prop := s ≠ "" ∧ no_slash s = true.

(** The files of a walk, by their components relative to [heads_path]. *)
Definition walked_files (walk : walked) : list (list string) :=
  flat_map (λ rf, (λ fc : string * string, rf.1 ++ [fc.1]) <$> rf.2) walk.

(** Two branch directories: [main] and [fix/one], [fix/two]. *)
Definition heads_walk : walked :=
  [([], [("main", String.append "m01" (String "010" ""))]);
   (["fix"], [("one", String.append "z01" (String "010" ""));
              ("two", String.append "m01" (String "010" ""))])].

(** * Properties *)

(** ** Rules for [while] *)

Section while_rules.
Context {S A : Type} (body : S → step_result S A).
Variable I : S → Prop.
Hypothesis I_step : ∀ s s', I s → body s = Continue s' → I s'.

Lemma while_returns fuel s a :
  I s → while body fuel s = Some (Returns a) →
  ∃ s', I s' ∧ body s' = Break a.
Proof.
  revert s. induction fuel as [|fuel IH]; intros s Hs Hw; [done|].
  simpl in Hw. destruct (body s) as [s'|b|e] eqn:Hb.
  - eapply IH; [|done]. eauto.
  - simplify_eq. eauto.
  - done.
Qed.

Lemma while_raises fuel s e :
  I s → while body fuel s = Some (Raises e) →
  ∃ s', I s' ∧ body s' = Throw e.
Proof.
  revert s. induction fuel as [|fuel IH]; intros s Hs Hw; [done|].
  simpl in Hw. destruct (body s) as [s'|b|e'] eqn:Hb.
  - eapply IH; [|done]. eauto.
  - done.
  - simplify_eq. eauto.
Qed.

Variable m : S → nat.
Hypothesis m_step : ∀ s s', I s → body s = Continue s' → (m s' < m s)%nat.

Lemma while_enough fuel s :
  I s → (m s < fuel)%nat → is_Some (while body fuel s).
Proof.
  revert s. induction fuel as [|fuel IH]; intros s Hs Hm; [lia|].
  simpl. destruct (body s) as [s'|b|e] eqn:Hb; [|by eexists..].
  apply IH; [by eauto|]. specialize (m_step s s' Hs Hb). lia.
Qed.

Lemma while_more_fuel fuel fuel' s :
  I s → (m s < fuel)%nat → (fuel ≤ fuel')%nat →
  while body fuel' s = while body fuel s.
Proof.
  revert fuel' s. induction fuel as [|fuel IH]; intros fuel' s Hs Hm Hle; [lia|].
  destruct fuel' as [|fuel']; [lia|].
  simpl. destruct (body s) as [s'|b|e] eqn:Hb; [|done..].
  apply IH; [by eauto| |lia]. specialize (m_step s s' Hs Hb). lia.
Qed.
End while_rules.

(** ** The builder always terminates *)

Lemma parent_hashes_of_length lines hs :
  parent_hashes_of lines = Returns hs →
  length hs = length (filter (λ l, is_parent_line l = true) lines).
Proof.
  revert hs. induction lines as [|line rest IH]; intros hs Hp; simpl in Hp.
  - by simplify_eq.
  - rewrite filter_cons. destruct (is_parent_line line) eqn:Hl.
    + destruct (split line !! 1%nat); [|done].
      destruct (parent_hashes_of rest) as [hs'|]; [|done].
      simplify_eq. rewrite decide_True by done. simpl. f_equal. by apply IH.
    + rewrite decide_False by (by intros ?). by apply IH.
Qed.

Lemma foldl_link_parent_stack commit ps acc :
  (foldl (link_parent commit) acc ps).2 = reverse ps ++ acc.2.
Proof.
  revert acc. induction ps as [|p ps IH]; intros acc; [done|].
  cbn [foldl]. rewrite IH, reverse_cons, <-app_assoc. done.
Qed.

Lemma unvisited_absent store visited commit :
  store !! commit = None →
  unvisited store ({[commit]} ∪ visited) = unvisited store visited.
Proof.
  intros Hnone. apply map_filter_ext. intros k o Hk. simpl.
  assert (k ≠ commit) by congruence. set_solver.
Qed.

Lemma unvisited_present store visited commit o :
  store !! commit = Some o → commit ∉ visited →
  store_weight (unvisited store visited)
  = (pushes_of o + store_weight (unvisited store ({[commit]} ∪ visited)))%nat.
Proof.
  intros Ho Hnv.
  assert (unvisited store ({[commit]} ∪ visited)
          = delete commit (unvisited store visited)) as ->.
  { apply map_eq. intros k. unfold unvisited.
    destruct (decide (k = commit)) as [->|Hne].
    - rewrite lookup_delete_eq. apply map_lookup_filter_None. right.
      intros ? _. simpl. set_solver.
    - rewrite lookup_delete_ne by done. rewrite !map_lookup_filter.
      destruct (store !! k); [|done]. simpl.
      apply option_guard_iff. set_solver. }
  assert (unvisited store visited !! commit = Some o) as Hl.
  { apply map_lookup_filter_Some. split; [done|]. simpl. done. }
  unfold store_weight. rewrite <-(map_to_list_delete _ _ _ Hl). done.
Qed.

Lemma build_step_decreases store st st' :
  build_step store st = Continue st' →
  (build_measure store st' < build_measure store st)%nat.
Proof.
  unfold build_step, build_measure. destruct st as [g visited stack]. simpl.
  destruct stack as [|commit stack]; [done|].
  case_decide as Hv.
  { intros [= <-]. simpl. lia. }
  unfold decompress_git_object.
  destruct (store !! commit) as [[lines|]|] eqn:Hs; [| done |].
  - destruct (parent_hashes_of lines) as [hs|] eqn:Hp; [|done].
    intros [= <-]. simpl.
    rewrite foldl_link_parent_stack, length_app, length_reverse.
    rewrite (unvisited_present _ _ _ _ Hs Hv). simpl.
    rewrite (parent_hashes_of_length _ _ Hp). lia.
  - intros [= <-]. simpl. rewrite unvisited_absent by done. lia.
Qed.

(** ** What the builder computes *)

Lemma node_eq n1 n2 :
  commit_hash n1 = commit_hash n2 → parents n1 = parents n2 →
  children n1 = children n2 → n1 = n2.
Proof. destruct n1, n2. simpl. by intros -> -> ->. Qed.

Lemma add_child_idemp c n : add_child c (add_child c n) = add_child c n.
Proof. unfold add_child. simpl. f_equal. set_solver. Qed.

Lemma lookup_ensure_node h g k :
  ensure_node h g !! k
  = if decide (k = h) then Some (default (new_node h) (g !! h)) else g !! k.
Proof.
  unfold ensure_node. destruct (g !! h) as [n|] eqn:Hg; case_decide; subst;
    simpl; rewrite ?Hg, ?lookup_insert_eq, ?lookup_insert_ne by done; done.
Qed.

Lemma lookup_link_parent commit acc p k :
  (link_parent commit acc p).1 !! k
  = if decide (k = p)
    then Some (add_child commit (default (new_node p) (acc.1 !! p)))
    else acc.1 !! k.
Proof.
  unfold link_parent. simpl. case_decide as Hk.
  - subst. rewrite lookup_alter_eq, lookup_ensure_node, decide_True by done.
    done.
  - rewrite lookup_alter_ne, lookup_ensure_node, decide_False by done. done.
Qed.

Lemma foldl_link_parent_lookup commit ps acc k :
  (foldl (link_parent commit) acc ps).1 !! k
  = if decide (k ∈ ps)
    then Some (add_child commit (default (new_node k) (acc.1 !! k)))
    else acc.1 !! k.
Proof.
  revert acc. induction ps as [|p ps IH]; intros acc.
  { cbn [foldl]. rewrite decide_False by set_solver. done. }
  cbn [foldl]. rewrite IH, lookup_link_parent.
  destruct (decide (k = p)) as [->|Hne].
  - rewrite (decide_True (P := p ∈ p :: ps)) by set_solver. simpl.
    case_decide; [by rewrite add_child_idemp|done].
  - destruct (decide (k ∈ ps)).
    + rewrite decide_True by set_solver. done.
    + rewrite decide_False by set_solver. done.
Qed.

Lemma default_node_expected store heads st k :
  build_inv store heads st →
  default (new_node k) (b_graph st !! k)
  = expected_node store (b_visited st) k.
Proof.
  intros Hinv. destruct (b_graph st !! k) as [n|] eqn:Hk; simpl.
  { by apply (bi_node _ _ _ Hinv). }
  assert (k ∉ dom (b_graph st)) as Hd by by apply not_elem_of_dom.
  rewrite (bi_dom _ _ _ Hinv) in Hd.
  unfold new_node, expected_node. f_equal.
  - rewrite decide_False; [done|]. tauto.
  - symmetry. apply leibniz_equiv. apply set_equiv. intros x.
    rewrite elem_of_filter. split; [|set_solver].
    intros [? ?]. exfalso. apply Hd. eauto.
Qed.

Lemma expected_node_visit store visited commit k :
  commit ∉ visited →
  expected_node store ({[commit]} ∪ visited) k
  = (if decide (k ∈ parents_in store commit) then add_child commit else id)
      ((if decide (k = commit) then set_parents (parents_in store commit)
        else id) (expected_node store visited k)).
Proof.
  intros Hnv.
  assert (parents (expected_node store ({[commit]} ∪ visited) k)
          = if decide (k = commit) then parents_in store commit
            else parents (expected_node store visited k)) as Hps.
  { simpl. destruct (decide (k = commit)) as [->|].
    - rewrite decide_True by set_solver. done.
    - destruct (decide (k ∈ visited)).
      + rewrite decide_True by set_solver. done.
      + rewrite decide_False by set_solver. done. }
  assert (children (expected_node store ({[commit]} ∪ visited) k)
          = if decide (k ∈ parents_in store commit)
            then {[commit]} ∪ children (expected_node store visited k)
            else children (expected_node store visited k)) as Hcs.
  { clear Hps. simpl. apply leibniz_equiv. apply set_equiv. intros x.
    destruct (decide (k ∈ parents_in store commit)); set_unfold; naive_solver. }
  apply node_eq; [| rewrite Hps | rewrite Hcs];
    repeat case_decide; simpl; done.
Qed.

Lemma parents_in_recorded store h ps :
  recorded_parents store h = Returns ps → parents_in store h = ps.
Proof. unfold parents_in. by intros ->. Qed.

Lemma build_inv_init store branches :
  build_inv store branches.*2 (build_init branches).
Proof.
  split; simpl; try set_solver.
  intros h [Hh|Hh]; [set_solver|].
  apply reach_head. by apply elem_of_reverse.
Qed.

(** Expanding a commit whose object is absent or well-formed. *)
Lemma build_step_visit store heads st commit rest ps :
  build_inv store heads st →
  b_stack st = commit :: rest → commit ∉ b_visited st →
  recorded_parents store commit = Returns ps →
  ∃ g', build_step store st
        = Continue (mkBuild g' ({[commit]} ∪ b_visited st) (reverse ps ++ rest))
    ∧ ∀ k, g' !! k
        = if decide (k = commit ∨ k ∈ ps)
          then Some (expected_node store ({[commit]} ∪ b_visited st) k)
          else b_graph st !! k.
Proof.
  intros Hinv Hst Hnv Hrec. pose proof (parents_in_recorded _ _ _ Hrec) as Hps.
  pose proof (default_node_expected store heads st commit Hinv) as Hc.
  unfold build_step. rewrite Hst, decide_False by done.
  unfold recorded_parents in Hrec.
  destruct (decompress_git_object store commit) as [lines| |]; [| |done].
  - rewrite Hrec. eexists. split.
    { f_equal. f_equal. apply foldl_link_parent_stack. }
    intros k. rewrite foldl_link_parent_lookup. cbn [fst].
    rewrite expected_node_visit, Hps by done.
    rewrite <-(default_node_expected store heads st k Hinv).
    destruct (decide (k = commit)) as [->|Hne].
    + rewrite lookup_alter_eq, lookup_ensure_node.
      rewrite (decide_True (P := commit = commit)) by done.
      rewrite (decide_True (P := commit = commit ∨ _)) by tauto. simpl.
      by case_decide.
    + rewrite lookup_alter_ne, lookup_ensure_node by done.
      rewrite (decide_False (P := k = commit)) by done.
      destruct (decide (k ∈ ps)).
      * rewrite decide_True by tauto. done.
      * rewrite decide_False by tauto. done.
  - injection Hrec as <-. eexists. split; [reflexivity|]. intros k.
    rewrite lookup_ensure_node, expected_node_visit, Hps by done.
    rewrite (decide_False (P := k ∈ [])) by set_solver.
    destruct (decide (k = commit)) as [->|Hne].
    + rewrite decide_True by tauto. simpl. f_equal. rewrite Hc.
      apply node_eq; simpl; [done| |done]. by rewrite decide_False.
    + rewrite decide_False; [done|]. set_solver.
Qed.

Lemma build_step_throw store st e :
  build_step store st = Throw e →
  ∃ commit, commit ∈ b_stack st ∧ recorded_parents store commit = Raises e.
Proof.
  unfold build_step, recorded_parents.
  destruct (b_stack st) as [|commit rest]; [done|].
  case_decide; [done|]. intros Hstep. exists commit. split; [set_solver|].
  destruct (decompress_git_object store commit) as [lines| |].
  - destruct (parent_hashes_of lines); [done|]. by simplify_eq.
  - done.
  - by simplify_eq.
Qed.

Lemma build_inv_step store heads st st' :
  build_inv store heads st → build_step store st = Continue st' →
  build_inv store heads st'.
Proof.
  intros Hinv Hstep.
  destruct (b_stack st) as [|commit rest] eqn:Hst.
  { unfold build_step in Hstep. by rewrite Hst in Hstep. }
  destruct (decide (commit ∈ b_visited st)) as [Hv|Hnv].
  { unfold build_step in Hstep. rewrite Hst, decide_True in Hstep by done.
    simplify_eq. destruct Hinv as [Hg Hc Hh Hr Hd Hn].
    split; simpl; try done.
    - intros h p Hhv Hp. destruct (Hc h p Hhv Hp) as [?|Hin]; [by left|].
      rewrite Hst in Hin. set_solver.
    - intros h Hhh. destruct (Hh h Hhh) as [?|Hin]; [by left|].
      rewrite Hst in Hin. set_solver.
    - intros h Hhh. apply Hr. rewrite Hst. set_solver. }
  destruct (recorded_parents store commit) as [ps|e] eqn:Hrec.
  2:{ unfold build_step, recorded_parents in *.
      rewrite Hst, decide_False in Hstep by done.
      destruct (decompress_git_object store commit) as [lines| |];
        [|done..]. by rewrite Hrec in Hstep. }
  destruct (build_step_visit _ _ _ _ _ _ Hinv Hst Hnv Hrec) as (g' & Hs & Hg').
  rewrite Hs in Hstep. simplify_eq.
  pose proof (parents_in_recorded _ _ _ Hrec) as Hps.
  destruct Hinv as [Hg Hc Hh Hr Hd Hn].
  assert (reachable store heads commit) as Hrc.
  { apply Hr. rewrite Hst. set_solver. }
  split; simpl.
  - intros h [->%elem_of_singleton|Hhv]%elem_of_union; [by rewrite Hps|eauto].
  - intros h p [->%elem_of_singleton|Hhv]%elem_of_union Hp.
    + rewrite Hps in Hp. right. set_solver.
    + destruct (Hc h p Hhv Hp) as [?|Hin]; [set_solver|].
      rewrite Hst in Hin. set_solver.
  - intros h Hhh. destruct (Hh h Hhh) as [?|Hin]; [set_solver|].
    rewrite Hst in Hin. set_solver.
  - intros h [[->%elem_of_singleton|Hhv]%elem_of_union
             |[Hin|Hin]%elem_of_app]; eauto.
    + rewrite elem_of_reverse in Hin. eapply reach_parent; eauto.
    + apply Hr. rewrite Hst. set_solver.
  - intros h. rewrite elem_of_dom, Hg'. case_decide as Hk.
    + split; [intros _|by eauto].
      destruct Hk as [->|Hk]; [set_solver|]. right. exists commit.
      rewrite Hps. set_solver.
    + rewrite <-elem_of_dom, Hd. split.
      * intros [?|(x & ? & ?)]; [set_solver|]. right. exists x. set_solver.
      * intros [[->%elem_of_singleton|?]%elem_of_union|(x & Hx & Hp)];
          [tauto|by left|].
        apply elem_of_union in Hx as [->%elem_of_singleton|Hx].
        -- rewrite Hps in Hp. tauto.
        -- right. eauto.
  - intros h n. rewrite Hg'. case_decide as Hk; [by intros [= <-]|].
    intros Hl. rewrite (Hn h n Hl), expected_node_visit, Hps by done.
    rewrite !decide_False by tauto. done.
Qed.

Lemma build_commit_graph_fuel store branches extra :
  while (build_step store) (build_fuel store branches + extra)
    (build_init branches)
  = build_commit_graph store branches.
Proof.
  unfold build_commit_graph.
  apply (while_more_fuel (build_step store) (λ _, True)) with
    (m := build_measure store); try done.
  - intros st st' _. apply build_step_decreases.
  - unfold build_fuel. lia.
  - lia.
Qed.

Lemma build_commit_graph_is_Some store branches :
  is_Some (build_commit_graph store branches).
Proof.
  unfold build_commit_graph.
  apply (while_enough (build_step store) (λ _, True)) with
    (m := build_measure store); try done.
  - intros st st' _. apply build_step_decreases.
  - unfold build_fuel. lia.
Qed.

Lemma build_step_skip store g visited commit rest :
  build_step store (mkBuild g ({[commit]} ∪ visited) (commit :: rest))
  = Continue (mkBuild g ({[commit]} ∪ visited) rest).
Proof. unfold build_step. simpl. rewrite decide_True by set_solver. done. Qed.

Lemma build_step_marks store g visited commit rest :
  match build_step store (mkBuild g visited (commit :: rest)) with
  | Continue st' => commit ∈ b_visited st' ∧ visited ⊆ b_visited st'
  | _ => True
  end.
Proof.
  unfold build_step. simpl. case_decide; [done|].
  destruct (decompress_git_object store commit) as [lines| |]; [|simpl..].
  - destruct (parent_hashes_of lines); simpl; [|done]. set_solver.
  - set_solver.
  - done.
Qed.

(** The graph returned is determined by the store and the set of heads. *)
Lemma build_commit_graph_returns store branches g :
  build_commit_graph store branches = Some (Returns g) →
  ∃ visited : gset string,
    (∀ h, h ∈ visited ↔ reachable store branches.*2 h)
    ∧ (∀ h, h ∈ visited →
         recorded_parents store h = Returns (parents_in store h))
    ∧ ∀ h, g !! h = if decide (h ∈ visited)
                    then Some (expected_node store visited h) else None.
Proof.
  intros Hb.
  apply (while_returns _ (build_inv store branches.*2)) in Hb
    as (st & Hinv & Hbr);
    [|apply build_inv_step|apply build_inv_init].
  unfold build_step in Hbr.
  destruct (b_stack st) as [|commit rest] eqn:Hst.
  2:{ repeat case_match; done. }
  simplify_eq. exists (b_visited st).
  destruct Hinv as [Hg Hc Hh Hr Hd Hn]. rewrite Hst in *.
  assert (∀ h, reachable store branches.*2 h → h ∈ b_visited st) as Hrv.
  { induction 1 as [h Hhead|x ps p _ IH Hrec Hp].
    - destruct (Hh h Hhead) as [?|?]; [done|set_solver].
    - apply parents_in_recorded in Hrec. subst ps.
      destruct (Hc x p IH Hp) as [?|?]; [done|set_solver]. }
  split; [|split; [done|]].
  - intros h. split; [by eauto|by apply Hrv].
  - intros h. case_decide as Hv.
    + assert (h ∈ dom (b_graph st)) as [n Hl]%elem_of_dom by (apply Hd; eauto).
      rewrite Hl. f_equal. by apply Hn.
    + apply not_elem_of_dom. rewrite Hd. intros [?|(x & Hx & Hp)]; [done|].
      apply Hv. destruct (Hc x h Hx Hp) as [?|?]; [done|set_solver].
Qed.

(** The builder raises only on an object that is present and unreadable or
    malformed, and reachable from the heads. *)
Lemma build_commit_graph_raises store branches e :
  build_commit_graph store branches = Some (Raises e) →
  ∃ h, reachable store branches.*2 h ∧ recorded_parents store h = Raises e.
Proof.
  intros Hb.
  apply (while_raises _ (build_inv store branches.*2)) in Hb
    as (st & Hinv & Hthrow);
    [|apply build_inv_step|apply build_inv_init].
  apply build_step_throw in Hthrow as (commit & Hin & Hrec).
  exists commit. split; [|done]. apply (bi_reach _ _ _ Hinv). by right.
Qed.

(** ** Well-formed commit graphs *)

Lemma build_commit_graph_well_formed store branches g :
  build_commit_graph store branches = Some (Returns g) → well_formed g.
Proof.
  intros (visited & Hreach & Hgood & Hg)%build_commit_graph_returns.
  assert (∀ x n, g !! x = Some n →
            x ∈ visited ∧ n = expected_node store visited x) as Hnode.
  { intros x n. rewrite Hg. case_decide; [|done]. by intros [= <-]. }
  assert (∀ x p, x ∈ visited → p ∈ parents_in store x → p ∈ visited) as Hcl.
  { intros x p Hx Hp. apply Hreach. eapply reach_parent; [|by apply Hgood|done].
    by apply Hreach. }
  assert (∀ x, x ∈ dom g ↔ x ∈ visited) as Hdom.
  { intros x. rewrite elem_of_dom, Hg. case_decide; [by eauto|].
    split; [by intros [? ?]|done]. }
  split.
  - intros x n p [Hx ->]%Hnode. simpl. rewrite decide_True by done.
    rewrite Hdom. eauto.
  - intros x n c [Hx ->]%Hnode. simpl. rewrite elem_of_filter, Hdom. tauto.
  - intros p n x [Hp ->]%Hnode. simpl. rewrite elem_of_filter.
    unfold parent_edge. split.
    + intros [Hin Hx]. eexists. rewrite Hg, decide_True by done.
      split; [done|]. simpl. by rewrite decide_True.
    + intros (nx & [Hx ->]%Hnode & Hin). simpl in Hin.
      rewrite decide_True in Hin by done. done.
Qed.

(** ** The release loop of the sequencer *)

Lemma count_in_nil p : count_in p [] = 0%nat.
Proof. done. Qed.

Lemma count_in_cons p y l :
  count_in p (y :: l)
  = ((if decide (y = p) then 1 else 0) + count_in p l)%nat.
Proof. unfold count_in. rewrite filter_cons. by case_decide. Qed.

Lemma count_in_app p l1 l2 :
  count_in p (l1 ++ l2) = (count_in p l1 + count_in p l2)%nat.
Proof. unfold count_in. by rewrite filter_app, length_app. Qed.

Lemma count_in_pos p l : p ∈ l ↔ (0 < count_in p l)%nat.
Proof.
  induction l as [|y l IH].
  { split; [by intros ?%elem_of_nil|]. unfold count_in. simpl. lia. }
  rewrite count_in_cons, elem_of_cons. case_decide; subst.
  - split; [lia|by left].
  - rewrite IH. split; [intros [?|?]; [done|lia]|intros ?; right; lia].
Qed.

Lemma count_in_NoDup p l : NoDup l → (count_in p l ≤ 1)%nat.
Proof.
  induction 1 as [|y l Hy _ IH]; [unfold count_in; simpl; lia|].
  rewrite count_in_cons.
  case_decide; [|lia]. subst.
  assert (¬ (0 < count_in p l)%nat) by by rewrite <-count_in_pos. lia.
Qed.

Lemma release_spec ps : ∀ in_degree next_choices,
  (∀ p, p ∈ ps → is_Some (in_degree !! p)) →
  ∃ in_degree' added,
    release ps in_degree next_choices
    = Returns (in_degree', next_choices ++ added)
    ∧ (∀ p, in_degree' !! p
            = (λ d, d - Z.of_nat (count_in p ps)) <$> in_degree !! p)
    ∧ NoDup added
    ∧ ∀ p, p ∈ added ↔
        ∃ d, in_degree !! p = Some d ∧ 0 < d ≤ Z.of_nat (count_in p ps).
Proof.
  induction ps as [|parent ps IH]; intros deg next Hdom.
  { exists deg, []. rewrite app_nil_r. split; [done|]. split; [|split].
    - intros p. rewrite count_in_nil.
      destruct (deg !! p); simpl; [f_equal; lia|done].
    - constructor.
    - intros p. split; [by intros ?%elem_of_nil|].
      intros (d & _ & Hd). rewrite count_in_nil in Hd. lia. }
  destruct (Hdom parent) as [d Hd]; [set_solver|].
  simpl. rewrite Hd.
  destruct (IH (<[parent := d - 1]> deg)
              (if decide (d - 1 = 0) then next ++ [parent] else next))
    as (deg' & added & Hrel & Hdeg & Hnd & Hadd).
  { intros p Hp. rewrite lookup_insert_is_Some. destruct (decide (parent = p));
      [by left|right; split; [done|apply Hdom; set_solver]]. }
  rewrite Hrel.
  assert (∀ p, deg' !! p
            = (λ d0, d0 - Z.of_nat (count_in p (parent :: ps))) <$> deg !! p)
    as Hdeg'.
  { intros p. rewrite Hdeg, count_in_cons.
    destruct (decide (parent = p)) as [->|Hne].
    - rewrite lookup_insert_eq, Hd. simpl. f_equal. lia.
    - rewrite lookup_insert_ne by done.
      destruct (deg !! p); simpl; [f_equal; lia|done]. }
  assert (∀ p, (if decide (d - 1 = 0) then p = parent else False) ∨ p ∈ added
            ↔ ∃ d0, deg !! p = Some d0
                    ∧ 0 < d0 ≤ Z.of_nat (count_in p (parent :: ps)))
    as Hadd'.
  { intros p. rewrite Hadd, count_in_cons.
    destruct (decide (parent = p)) as [->|Hne].
    - rewrite lookup_insert_eq, Hd. split.
      + intros [Hp|(d0 & [= <-] & ?)]; [|exists d; split; [done|lia]].
        case_decide; [|done]. exists d. split; [done|lia].
      + intros (d0 & [= <-] & ?). destruct (decide (d - 1 = 0)); [by left|].
        right. exists (d - 1). split; [done|lia].
    - rewrite lookup_insert_ne by done. split.
      + intros [Hp|(d0 & ? & ?)]; [by case_decide|].
        exists d0. split; [done|lia].
      + intros (d0 & ? & ?). right. exists d0. split; [done|lia]. }
  destruct (decide (d - 1 = 0)) as [Hz|Hnz].
  - exists deg', (parent :: added). rewrite <-app_assoc. simpl.
    split; [done|]. split; [done|]. split.
    + constructor; [|done]. rewrite Hadd, lookup_insert_eq.
      intros (d0 & [= <-] & ?). lia.
    + intros p. rewrite elem_of_cons. apply Hadd'.
  - exists deg', added. split; [done|]. split; [done|]. split; [done|].
    intros p. rewrite <-Hadd'. tauto.
Qed.

Lemma release_raises ps : ∀ in_degree next_choices e,
  release ps in_degree next_choices = Raises e →
  ∃ p, e = KeyError p ∧ p ∈ ps ∧ in_degree !! p = None.
Proof.
  induction ps as [|parent ps IH]; intros deg next e; simpl; [done|].
  destruct (deg !! parent) as [d|] eqn:Hd.
  - intros (p & -> & Hp & Hl)%IH. exists p. split; [done|].
    split; [set_solver|]. apply lookup_insert_None in Hl. tauto.
  - intros [= <-]. exists parent. split; [done|]. split; [set_solver|done].
Qed.

(** ** The invariant of the sequencer loop *)

Lemma parents_at_lookup g x n : g !! x = Some n → parents_at g x = parents n.
Proof. unfold parents_at. by intros ->. Qed.

Lemma sorted_Permutation l : sorted l ≡ₚ l.
Proof. apply merge_sort_Permutation. Qed.

Lemma sorted_StronglySorted l : StronglySorted String.le (sorted l).
Proof. apply StronglySorted_merge_sort; apply _. Qed.

Lemma sorted_unique l1 l2 : l1 ≡ₚ l2 → sorted l1 = sorted l2.
Proof.
  intros Hp. apply (StronglySorted_unique String.le);
    [apply sorted_StronglySorted..|].
  by rewrite !sorted_Permutation.
Qed.

Lemma elem_of_sorted x l : x ∈ sorted l ↔ x ∈ l.
Proof. by rewrite sorted_Permutation. Qed.

Lemma topo_inv_init g : topo_inv g (topo_init g).
Proof.
  split; simpl.
  - intros p. unfold expected_degree, released. rewrite lookup_fmap.
    change ([] ≫= parents_at g) with (@nil string). rewrite count_in_nil.
    destruct (g !! p); simpl; [f_equal; lia|done].
  - rewrite sorted_Permutation. apply NoDup_fst_map_to_list.
  - intros p. rewrite elem_of_sorted, list_elem_of_fmap. split.
    + intros ([k d] & -> & Hin). apply elem_of_map_to_list in Hin.
      apply map_lookup_filter_Some in Hin as [Hl Hz]. simpl in *.
      exists d. split; [done|lia].
    + intros (d & Hl & Hd). exists (p, d). split; [done|].
      apply elem_of_map_to_list, map_lookup_filter_Some. split; [done|].
      simpl. rewrite lookup_fmap in Hl.
      destruct (g !! p); simplify_eq/=. lia.
  - apply sorted_StronglySorted.
  - done.
Qed.

Lemma remove_first_Permutation x l : x ∈ l → l ≡ₚ x :: remove_first x l.
Proof.
  induction l as [|y l IH]; [by intros ?%elem_of_nil|].
  intros Hin. simpl. case_decide as Hxy; [by subst|].
  apply elem_of_cons in Hin as [?|Hin]; [done|].
  rewrite (IH Hin) at 1. apply perm_swap.
Qed.

Lemma select_None g current next_choices :
  select g current next_choices = None ↔ next_choices = [].
Proof.
  unfold select. destruct next_choices; [done|].
  split; [|done]. repeat case_match; done.
Qed.

Lemma select_Permutation g current next_choices chosen rest :
  select g current next_choices = Some (chosen, rest) →
  next_choices ≡ₚ chosen :: rest.
Proof.
  unfold select. destruct next_choices as [|first tl]; [done|].
  destruct (preferred g current) as [p|]; [|by intros [= <- <-]].
  case_decide as Hin; intros [= <- <-]; [|done].
  by apply remove_first_Permutation.
Qed.

Lemma release_returns_dom ps : ∀ in_degree next_choices r,
  release ps in_degree next_choices = Returns r →
  ∀ p, p ∈ ps → is_Some (in_degree !! p).
Proof.
  induction ps as [|parent ps IH]; intros deg next r Hrel p Hp;
    [by apply elem_of_nil in Hp|].
  simpl in Hrel. destruct (deg !! parent) as [d|] eqn:Hd; [|done].
  apply elem_of_cons in Hp as [->|Hp]; [by eauto|].
  specialize (IH _ _ _ Hrel p Hp). apply lookup_insert_is_Some in IH.
  destruct IH as [->|[_ ?]]; [by eauto|done].
Qed.

Lemma topo_inv_step g st st' :
  topo_inv g st → topo_step g st = Continue st' → topo_inv g st'.
Proof.
  intros [Hdeg Hnd Hready Hsorted Hcur]. unfold topo_step.
  destruct (select g (t_current st) (t_next_choices st))
    as [[chosen rest]|] eqn:Hsel; [|done].
  pose proof (select_Permutation _ _ _ _ _ Hsel) as Hperm.
  assert (chosen ∈ t_order st ++ t_next_choices st) as Hchosen.
  { rewrite Hperm. set_solver. }
  apply Hready in Hchosen as (d & Hd & _).
  rewrite Hdeg in Hd. unfold expected_degree in Hd.
  destruct (g !! chosen) as [node|] eqn:Hnode; [|done].
  destruct (release (parents node) (t_in_degree st) rest)
    as [[deg' next']|] eqn:Hrel; [|done].
  intros [= <-].
  destruct (release_spec (parents node) (t_in_degree st) rest)
    as (deg'' & added & Hrel' & Hdeg' & Hnda & Hadd).
  { eapply release_returns_dom. done. }
  rewrite Hrel in Hrel'. simplify_eq.
  assert (∀ p, p ∈ added → p ∉ t_order st ++ t_next_choices st) as Hfresh.
  { intros p (d0 & Hl & ?)%Hadd (d1 & Hl' & ?)%Hready. simplify_eq. lia. }
  split; simpl.
  - intros p. rewrite Hdeg', Hdeg. unfold expected_degree, released.
    rewrite bind_app, bind_singleton, count_in_app.
    rewrite (parents_at_lookup _ _ _ Hnode).
    destruct (g !! p); simpl; [f_equal; lia|done].
  - rewrite sorted_Permutation.
    rewrite <-app_assoc. simpl.
    assert (t_order st ++ chosen :: rest ++ added
            ≡ₚ (t_order st ++ t_next_choices st) ++ added) as ->.
    { rewrite Hperm. by rewrite <-app_assoc. }
    apply NoDup_app. split; [done|]. split; [|done].
    intros p Hp Hpa. by apply (Hfresh p).
  - intros p. rewrite sorted_Permutation, <-app_assoc. simpl.
    assert (t_order st ++ chosen :: rest ++ added
            ≡ₚ (t_order st ++ t_next_choices st) ++ added) as ->.
    { rewrite Hperm. by rewrite <-app_assoc. }
    rewrite elem_of_app, Hready, Hadd, Hdeg'. split.
    + intros [(d0 & Hl & ?)|(d0 & Hl & ?)]; rewrite Hl; simpl;
        eexists; (split; [done|lia]).
    + intros (d1 & Hl & ?). destruct (t_in_degree st !! p) as [d0|]; [|done].
      simpl in Hl. simplify_eq. destruct (decide (d0 ≤ 0)).
      * left. eauto.
      * right. exists d0. split; [done|lia].
  - apply sorted_StronglySorted.
  - by rewrite last_snoc.
Qed.

(** ** The sequencer terminates, and does not raise on a closed graph *)

Lemma topo_step_order g st st' :
  topo_step g st = Continue st' →
  ∃ chosen rest,
    select g (t_current st) (t_next_choices st) = Some (chosen, rest)
    ∧ t_order st' = t_order st ++ [chosen]
    ∧ t_current st' = Some chosen.
Proof.
  unfold topo_step.
  destruct (select g (t_current st) (t_next_choices st))
    as [[chosen rest]|]; [|done].
  intros Hstep. exists chosen, rest. split; [done|].
  destruct (g !! chosen) as [node|].
  - destruct (release _ _ _) as [[deg' next']|]; [|done]. by simplify_eq.
  - by simplify_eq.
Qed.

Lemma topo_inv_in_graph g st p :
  topo_inv g st → p ∈ t_order st ++ t_next_choices st → p ∈ dom g.
Proof.
  intros Hinv (d & Hd & _)%(ti_ready _ _ Hinv).
  rewrite (ti_degree _ _ Hinv) in Hd. unfold expected_degree in Hd.
  apply elem_of_dom. destruct (g !! p); [by eauto|done].
Qed.

Lemma NoDup_length_le_size (l : list string) (X : gset string) :
  NoDup l → (∀ x, x ∈ l → x ∈ X) → (length l ≤ size X)%nat.
Proof.
  intros Hnd Hsub. rewrite <-(size_list_to_set (C := gset string)) by done.
  apply subseteq_size. intros x. rewrite elem_of_list_to_set. apply Hsub.
Qed.

Lemma NoDup_length_le_size_rev (l : list string) (X : gset string) :
  NoDup l → (∀ x, x ∈ X → x ∈ l) → (size X ≤ length l)%nat.
Proof.
  intros Hnd Hsub. rewrite <-(size_list_to_set (C := gset string)) by done.
  apply subseteq_size. intros x. rewrite elem_of_list_to_set. apply Hsub.
Qed.

Lemma topo_inv_bound g st :
  topo_inv g st →
  (length (t_order st) + length (t_next_choices st) ≤ size g)%nat.
Proof.
  intros Hinv. rewrite <-length_app, <-size_dom.
  apply NoDup_length_le_size; [apply (ti_nodup _ _ Hinv)|].
  intros x. by apply topo_inv_in_graph.
Qed.

Lemma topo_step_decreases g st st' :
  topo_inv g st → topo_step g st = Continue st' →
  (topo_measure g st' < topo_measure g st)%nat.
Proof.
  intros Hinv Hstep. pose proof (topo_inv_step _ _ _ Hinv Hstep) as Hinv'.
  apply topo_inv_bound in Hinv'.
  apply topo_step_order in Hstep as (chosen & rest & _ & Ho & _).
  unfold topo_measure. rewrite Ho, length_app in *. simpl in *. lia.
Qed.

Lemma topo_sort_is_Some g branch_heads : is_Some (topo_sort g branch_heads).
Proof.
  unfold topo_sort.
  apply (while_enough (topo_step g) (topo_inv g)) with (m := topo_measure g).
  - apply topo_inv_step.
  - apply topo_step_decreases.
  - apply topo_inv_init.
  - unfold topo_measure. simpl. lia.
Qed.

Lemma topo_sort_final g branch_heads order :
  topo_sort g branch_heads = Some (Returns order) →
  ∃ st, topo_inv g st ∧ t_next_choices st = [] ∧ t_order st = order.
Proof.
  intros Hs.
  apply (while_returns _ (topo_inv g)) in Hs as (st & Hinv & Hbr);
    [|apply topo_inv_step|apply topo_inv_init].
  exists st. split; [done|]. unfold topo_step in Hbr.
  destruct (select g (t_current st) (t_next_choices st))
    as [[chosen rest]|] eqn:Hsel.
  - repeat case_match; done.
  - apply select_None in Hsel. by simplify_eq.
Qed.

Lemma topo_step_no_throw g st e :
  parents_closed g → topo_inv g st → topo_step g st ≠ Throw e.
Proof.
  intros Hcl Hinv. unfold topo_step.
  destruct (select g (t_current st) (t_next_choices st))
    as [[chosen rest]|]; [|done].
  destruct (g !! chosen) as [node|] eqn:Hnode; [|done].
  destruct (release _ _ _) as [[deg' next']|e'] eqn:Hrel; [done|].
  apply release_raises in Hrel as (p & -> & Hp & Hnone).
  rewrite (ti_degree _ _ Hinv) in Hnone. unfold expected_degree in Hnone.
  apply (Hcl _ _ _ Hnode), elem_of_dom in Hp as [n Hn].
  by rewrite Hn in Hnone.
Qed.

Lemma topo_sort_returns g branch_heads :
  parents_closed g → ∃ order, topo_sort g branch_heads = Some (Returns order).
Proof.
  intros Hcl. destruct (topo_sort_is_Some g branch_heads) as [[order|e] Hs].
  { by eauto. }
  apply (while_raises _ (topo_inv g)) in Hs as (st & Hinv & Hthrow);
    [|apply topo_inv_step|apply topo_inv_init].
  by apply topo_step_no_throw in Hthrow.
Qed.

(** ** Coverage: on an acyclic well-formed graph every key is emitted *)

Lemma count_in_bind_ge p (f : string → list string) l :
  (length (filter (λ x, p ∈ f x) l) ≤ count_in p (l ≫= f))%nat.
Proof.
  induction l as [|x l IH]; [done|].
  rewrite bind_cons, count_in_app, filter_cons.
  case_decide as Hin; simpl; [|lia].
  apply count_in_pos in Hin. lia.
Qed.

Lemma count_in_bind_eq p (f : string → list string) l :
  (∀ x, x ∈ l → NoDup (f x)) →
  length (filter (λ x, p ∈ f x) l) = count_in p (l ≫= f).
Proof.
  induction l as [|x l IH]; intros Hnd; [done|].
  rewrite bind_cons, count_in_app, filter_cons.
  assert (NoDup (f x)) as Hx by (apply Hnd; set_solver).
  apply (count_in_NoDup p) in Hx.
  rewrite <-IH by (intros; apply Hnd; set_solver).
  case_decide as Hin; simpl.
  - apply count_in_pos in Hin. lia.
  - rewrite count_in_pos in Hin. lia.
Qed.

Lemma tc_flip {A} (R : relation A) x y : tc (flip R) x y → tc R y x.
Proof.
  induction 1 as [x y Hxy|x y z Hxy _ IH]; [by apply tc_once|].
  eapply tc_r; [apply IH|apply Hxy].
Qed.

Lemma children_sn g p : acyclic g → sn (flip (parent_edge g)) p.
Proof.
  intros Hac. apply tc_finite_sn.
  - intros x Hx. apply (Hac x). by apply tc_flip.
  - exists (elements (dom g)). intros y Hy. apply elem_of_elements.
    assert (∃ z, parent_edge g y z) as (z & n & Hn & _);
      [|by apply elem_of_dom; eauto].
    induction Hy as [x y Hxy|x y z _ _ IH]; [by exists x|done].
Qed.

Lemma all_children_emitted_ready g st p n :
  well_formed g → topo_inv g st → g !! p = Some n →
  (∀ x, x ∈ children n → x ∈ t_order st) →
  p ∈ t_order st ++ t_next_choices st.
Proof.
  intros Hwf Hinv Hn Hch. apply (ti_ready _ _ Hinv).
  rewrite (ti_degree _ _ Hinv). unfold expected_degree. rewrite Hn. simpl.
  eexists. split; [done|].
  assert (size (children n) ≤ count_in p (released g (t_order st)))%nat; [|lia].
  etrans; [|apply count_in_bind_ge].
  apply NoDup_length_le_size_rev.
  - apply NoDup_filter. pose proof (ti_nodup _ _ Hinv) as Hnd.
    apply NoDup_app in Hnd. tauto.
  - intros x Hx. apply list_elem_of_filter. split; [|by apply Hch].
    apply (wf_children _ Hwf _ _ _ Hn) in Hx as (nx & Hnx & Hin).
    by rewrite (parents_at_lookup _ _ _ Hnx).
Qed.

Lemma all_emitted g st :
  well_formed g → acyclic g → topo_inv g st → t_next_choices st = [] →
  ∀ p, p ∈ dom g → p ∈ t_order st.
Proof.
  intros Hwf Hac Hinv Hnil p.
  induction (children_sn g p Hac) as [p _ IH]. intros [n Hn]%elem_of_dom.
  pose proof (all_children_emitted_ready g st p n Hwf Hinv Hn) as Hready.
  rewrite Hnil, app_nil_r in Hready. apply Hready.
  intros x Hx. apply IH.
  - by apply (wf_children _ Hwf _ _ _ Hn).
  - by apply (wf_children_closed _ Hwf _ _ _ Hn).
Qed.

(** ** Acyclicity of the concrete graphs *)

(** A rank that decreases along every parent edge excludes cycles. *)
Lemma acyclic_ranked (g : graph) (rank : string → nat) :
  map_Forall (λ x n, Forall (λ p, (rank p < rank x)%nat) (parents n)) g →
  acyclic g.
Proof.
  intros Hrank.
  assert (∀ x y, tc (parent_edge g) x y → (rank y < rank x)%nat) as Htc.
  { induction 1 as [x y (n & Hn & Hin)|x y z (n & Hn & Hin) _ IH].
    - specialize (Hrank x n Hn). rewrite Forall_forall in Hrank. by apply Hrank.
    - specialize (Hrank x n Hn). rewrite Forall_forall in Hrank.
      specialize (Hrank y Hin). lia. }
  intros x Hx. apply Htc in Hx. lia.
Qed.

Lemma merge_graph_built :
  build_commit_graph merge_store merge_branches
  = Some (Returns (graph_of merge_store merge_branches)).
Proof. vm_compute. reflexivity. Qed.

Lemma merge_graph_acyclic : acyclic (graph_of merge_store merge_branches).
Proof.
  apply (acyclic_ranked _ merge_rank).
  apply (bool_decide_unpack _). vm_compute. exact I.
Qed.

Lemma topo_sort_covers_graph store branches g branch_heads :
  build_commit_graph store branches = Some (Returns g) →
  acyclic g →
  ∃ order,
    topo_sort g branch_heads = Some (Returns order)
    ∧ ∀ c, c ∈ dom g → c ∈ order.
Proof.
  intros Hwf%build_commit_graph_well_formed Hac.
  destruct (topo_sort_returns g branch_heads) as [order Hs].
  { intros x n p. apply (wf_parents_closed _ Hwf). }
  exists order. split; [done|].
  apply topo_sort_final in Hs as (st & Hinv & Hnil & <-).
  by apply all_emitted.
Qed.

(** Membership in a list given by its elements. *)
Ltac in_concrete_list :=
  simpl; repeat first [apply list_elem_of_here | apply list_elem_of_further].

(** ** Claims C1, C8, C9 and C10: coverage, closure, the unused argument,
    termination of the builder *)

(** C1. For every acyclic commit graph produced by [build_commit_graph]
    (from any branch list, in particular a non-empty one), the list returned
    by [topo_sort] contains every key of the graph exactly once, and nothing
    else. *)
Theorem topo_sort_covers_every_commit store branches g branch_heads :
  build_commit_graph store branches = Some (Returns g) →
  acyclic g →
  ∃ order,
    topo_sort g branch_heads = Some (Returns order)
    ∧ (∀ c, c ∈ dom g → count_in c order = 1%nat)
    ∧ (∀ c, c ∈ order → c ∈ dom g).
Proof.
  intros Hwf%build_commit_graph_well_formed Hac.
  destruct (topo_sort_returns g branch_heads) as [order Hs].
  { intros x n p. apply (wf_parents_closed _ Hwf). }
  exists order. split; [done|].
  apply topo_sort_final in Hs as (st & Hinv & Hnil & <-).
  pose proof (ti_nodup _ _ Hinv) as Hnd. rewrite Hnil, app_nil_r in Hnd.
  split.
  - intros c Hc. apply (all_emitted g st Hwf Hac Hinv Hnil) in Hc.
    apply count_in_pos in Hc. pose proof (count_in_NoDup c _ Hnd). lia.
  - intros c Hc. apply (topo_inv_in_graph g st c Hinv). set_solver.
Qed.

Lemma topo_sort_covers_every_commit_witness :
  ∃ order,
    topo_sort (graph_of merge_store merge_branches) ["m01"]
    = Some (Returns order)
    ∧ (∀ c, c ∈ dom (graph_of merge_store merge_branches) →
         count_in c order = 1%nat)
    ∧ (∀ c, c ∈ order → c ∈ dom (graph_of merge_store merge_branches)).
Proof.
  apply (topo_sort_covers_every_commit merge_store merge_branches).
  - exact merge_graph_built.
  - exact merge_graph_acyclic.
Defined.

(** C8. In the graph returned by [build_commit_graph] every identifier in a
    parents list or a children set is a key of the graph; consequently
    [topo_sort] returns normally on it: no decrement of [in_degree] meets a
    missing key. *)
Theorem built_graph_is_closed store branches g branch_heads :
  build_commit_graph store branches = Some (Returns g) →
  (∀ x n p, g !! x = Some n → p ∈ parents n → p ∈ dom g)
  ∧ (∀ x n c, g !! x = Some n → c ∈ children n → c ∈ dom g)
  ∧ (∃ order, topo_sort g branch_heads = Some (Returns order))
  ∧ (∀ key, topo_sort g branch_heads ≠ Some (Raises (KeyError key))).
Proof.
  intros Hwf%build_commit_graph_well_formed.
  assert (parents_closed g) as Hcl.
  { intros x n p. apply (wf_parents_closed _ Hwf). }
  split; [done|]. split; [apply (wf_children_closed _ Hwf)|].
  destruct (topo_sort_returns g branch_heads Hcl) as [order Hs].
  split; [by eauto|]. intros key. by rewrite Hs.
Qed.

Lemma built_graph_is_closed_witness :
  (∀ x n p, graph_of merge_store merge_branches !! x = Some n →
     p ∈ parents n → p ∈ dom (graph_of merge_store merge_branches))
  ∧ (∀ x n c, graph_of merge_store merge_branches !! x = Some n →
       c ∈ children n → c ∈ dom (graph_of merge_store merge_branches))
  ∧ (∃ order, topo_sort (graph_of merge_store merge_branches) ["m01"]
              = Some (Returns order))
  ∧ (∀ key, topo_sort (graph_of merge_store merge_branches) ["m01"]
            ≠ Some (Raises (KeyError key))).
Proof.
  apply (built_graph_is_closed merge_store merge_branches).
  exact merge_graph_built.
Defined.

(** C9. The result of [topo_sort] does not depend on its [branch_heads]
    argument: the loop starts from [topo_init], whose ready list holds
    exactly the keys of the graph whose children set is empty. *)
Theorem topo_sort_ignores_branch_heads (g : graph) (h1 h2 : list string) :
  topo_sort g h1 = topo_sort g h2
  ∧ topo_sort g h1 = while (topo_step g) (Datatypes.S (size g)) (topo_init g)
  ∧ ∀ c, c ∈ t_next_choices (topo_init g) ↔
         ∃ n, g !! c = Some n ∧ children n = ∅.
Proof.
  split; [reflexivity|]. split; [reflexivity|].
  intros c. unfold topo_init. cbn [t_next_choices].
  rewrite elem_of_sorted, list_elem_of_fmap. split.
  - intros ([k d] & -> & Hin). apply elem_of_map_to_list in Hin.
    apply map_lookup_filter_Some in Hin as [Hl Hz]. simpl in *.
    rewrite lookup_fmap in Hl. destruct (g !! k) as [n|]; [|done].
    exists n. split; [done|]. apply leibniz_equiv, size_empty_iff.
    simpl in Hl. injection Hl as <-. lia.
  - intros (n & Hn & Hempty). exists (c, 0). split; [done|].
    apply elem_of_map_to_list, map_lookup_filter_Some. split; [|done].
    rewrite lookup_fmap, Hn. simpl. by rewrite Hempty, size_empty.
Qed.

Example build_on_cycle :
  build_commit_graph cyclic_store [("b", "a01")]
  = Some (Returns {[ "a01" := mkCommitNode "a01" ["b01"; "h01"] {["b01"]};
                     "b01" := mkCommitNode "b01" ["a01"] {["a01"]};
                     "h01" := mkCommitNode "h01" [] {["a01"]} ]}).
Proof. vm_compute. reflexivity. Qed.

(** C10. [build_commit_graph] terminates on every finite object store, cyclic
    or not: the loop ends within [build_fuel] iterations, and more fuel
    changes nothing.  A pop of an identifier already visited only shortens
    the stack, and an iteration that continues leaves the popped identifier
    visited and forgets no visited identifier: none is expanded twice. *)
Theorem build_commit_graph_terminates store branches :
  (∃ r, build_commit_graph store branches = Some r)
  ∧ (∀ extra, while (build_step store) (build_fuel store branches + extra)
                (build_init branches)
              = build_commit_graph store branches)
  ∧ (∀ g visited commit rest,
       build_step store (mkBuild g ({[commit]} ∪ visited) (commit :: rest))
       = Continue (mkBuild g ({[commit]} ∪ visited) rest))
  ∧ (∀ g visited commit rest,
       match build_step store (mkBuild g visited (commit :: rest)) with
       | Continue st' => commit ∈ b_visited st' ∧ visited ⊆ b_visited st'
       | _ => True
       end).
Proof.
  split; [apply build_commit_graph_is_Some|].
  split; [apply build_commit_graph_fuel|].
  split; [apply build_step_skip|apply build_step_marks].
Qed.

(** ** Claim C3: the selection rule *)

Lemma topo_reachable_inv g st : topo_reachable g st → topo_inv g st.
Proof.
  induction 1; [apply topo_inv_init|by eapply topo_inv_step].
Qed.

Lemma sorted_head_least first rest y :
  StronglySorted String.le (first :: rest) → y ∈ first :: rest →
  String.le first y.
Proof.
  intros Hs Hy. apply StronglySorted_inv in Hs as [_ Hall].
  apply elem_of_cons in Hy as [->|Hy]; [done|].
  rewrite Forall_forall in Hall. by apply Hall.
Qed.

(** C3. At every selection step of [topo_sort]: [current] is the commit
    emitted last; if its first parent is in the ready list that parent is
    chosen, otherwise the least identifier of the ready list is; the chosen
    identifier is what the iteration appends to [order].  In particular a
    merge with parents [[P1; P2]], both ready, is followed by [P1], whatever
    the order between [P1] and [P2]. *)
Theorem selection_rule g st chosen rest :
  topo_reachable g st →
  select g (t_current st) (t_next_choices st) = Some (chosen, rest) →
  t_current st = last (t_order st)
  ∧ chosen ∈ t_next_choices st
  ∧ (∀ c n p ps, last (t_order st) = Some c → g !! c = Some n →
       parents n = p :: ps → p ∈ t_next_choices st → chosen = p)
  ∧ ((¬ ∃ c n p ps, last (t_order st) = Some c ∧ g !! c = Some n ∧
          parents n = p :: ps ∧ p ∈ t_next_choices st) →
     ∀ y, y ∈ t_next_choices st → String.le chosen y)
  ∧ (∀ M n P1 P2, last (t_order st) = Some M → g !! M = Some n →
       parents n = [P1; P2] → P1 ∈ t_next_choices st →
       P2 ∈ t_next_choices st → chosen = P1)
  ∧ (∀ st', topo_step g st = Continue st' →
       t_order st' = t_order st ++ [chosen]).
Proof.
  intros Hinv%topo_reachable_inv Hsel.
  pose proof (ti_current _ _ Hinv) as Hcur.
  pose proof (ti_sorted _ _ Hinv) as Hsorted.
  pose proof (select_Permutation _ _ _ _ _ Hsel) as Hperm.
  assert (∀ c n p ps, last (t_order st) = Some c → g !! c = Some n →
            parents n = p :: ps → p ∈ t_next_choices st → chosen = p)
    as Hfirst.
  { intros c n p ps Hc Hn Hps Hin. unfold select, preferred in Hsel.
    rewrite Hcur, Hc, Hn, Hps in Hsel. simpl in Hsel.
    destruct (t_next_choices st); [done|].
    rewrite decide_True in Hsel by done. by simplify_eq. }
  split; [done|]. split; [rewrite Hperm; set_solver|].
  split; [done|]. split; [|split].
  - intros Hno y Hy. unfold select in Hsel.
    destruct (t_next_choices st) as [|first tl] eqn:Hnext; [done|].
    assert (chosen = first) as ->; [|by eapply sorted_head_least].
    destruct (preferred g (t_current st)) as [p|] eqn:Hpref;
      [|by simplify_eq].
    case_decide as Hin; [|by simplify_eq].
    exfalso. apply Hno. unfold preferred in Hpref. rewrite Hcur in Hpref.
    destruct (last (t_order st)) as [c|]; [|done].
    destruct (g !! c) as [n|] eqn:Hn; [|done].
    destruct (parents n) as [|p' ps] eqn:Hps; [done|].
    simpl in Hpref. injection Hpref as ->. by exists c, n, p, ps.
  - intros M n P1 P2 HM Hn Hps Hin _. by eapply Hfirst.
  - intros st' (chosen' & rest' & Hsel' & Ho & _)%topo_step_order.
    rewrite Hsel in Hsel'. by simplify_eq.
Qed.

Lemma merge_first_step_reachable :
  topo_reachable (graph_of merge_store merge_branches)
    (after_first_step (graph_of merge_store merge_branches)).
Proof.
  eapply topo_reach_step; [apply topo_reach_init|].
  vm_compute. reflexivity.
Qed.

(** After the merge [m01], with [a01] and [z01] both ready, [z01] is chosen. *)
Lemma selection_rule_witness :
  t_next_choices (after_first_step (graph_of merge_store merge_branches))
  = ["a01"; "z01"]
  ∧ ∀ M n P1 P2,
      last (t_order (after_first_step (graph_of merge_store merge_branches)))
      = Some M →
      graph_of merge_store merge_branches !! M = Some n →
      parents n = [P1; P2] →
      P1 ∈ t_next_choices
             (after_first_step (graph_of merge_store merge_branches)) →
      P2 ∈ t_next_choices
             (after_first_step (graph_of merge_store merge_branches)) →
      "z01" = P1.
Proof.
  split; [vm_compute; reflexivity|].
  apply (selection_rule (graph_of merge_store merge_branches)
           (after_first_step (graph_of merge_store merge_branches))
           "z01" ["a01"]).
  - exact merge_first_step_reachable.
  - vm_compute. reflexivity.
Defined.

Example merge_order :
  topo_sort (graph_of merge_store merge_branches) ["m01"]
  = Some (Returns ["m01"; "z01"; "a01"; "r01"]).
Proof. vm_compute. reflexivity. Qed.

(** ** Claim C2: ancestry order, and the repeated parent entry that breaks
    it *)

Lemma ready_children_emitted g st p n :
  well_formed g → parents_nodup g → topo_inv g st → g !! p = Some n →
  p ∈ t_order st ++ t_next_choices st →
  ∀ x, x ∈ children n → x ∈ t_order st.
Proof.
  intros Hwf Hnd Hinv Hn (d & Hd & Hle)%(ti_ready _ _ Hinv).
  rewrite (ti_degree _ _ Hinv) in Hd. unfold expected_degree in Hd.
  rewrite Hn in Hd. simpl in Hd. injection Hd as <-.
  pose proof (ti_nodup _ _ Hinv) as [Hndo _]%NoDup_app.
  set (F := filter (λ x, p ∈ parents_at g x) (t_order st)).
  assert (length F = count_in p (released g (t_order st))) as HF.
  { apply count_in_bind_eq. intros x Hx. unfold parents_at.
    destruct (g !! x) as [nx|] eqn:Hnx; [by eapply Hnd|constructor]. }
  assert (list_to_set F = children n) as Heq.
  { apply set_subseteq_size_eq.
    - intros x [Hp Hx]%elem_of_list_to_set%list_elem_of_filter.
      apply (wf_children _ Hwf _ _ _ Hn). unfold parents_at in Hp.
      destruct (g !! x) as [nx|] eqn:Hnx; [|by apply elem_of_nil in Hp].
      by exists nx.
    - rewrite size_list_to_set by by apply NoDup_filter. lia. }
  intros x Hx. rewrite <-Heq in Hx.
  by apply elem_of_list_to_set, list_elem_of_filter in Hx as [_ ?].
Qed.

Lemma ancestry_ordered_step g st st' :
  well_formed g → parents_nodup g → topo_inv g st →
  ancestry_ordered g (t_order st) → topo_step g st = Continue st' →
  ancestry_ordered g (t_order st').
Proof.
  intros Hwf Hnd Hinv Hord (chosen & rest & Hsel & -> & _)%topo_step_order.
  apply select_Permutation in Hsel.
  pose proof (ti_nodup _ _ Hinv) as [_ [Hdisj _]]%NoDup_app.
  assert (chosen ∈ t_next_choices st) as Hchosen by (rewrite Hsel; set_solver).
  assert (∀ p, p ∈ t_order st ++ t_next_choices st →
            ¬ parent_edge g chosen p) as Hno.
  { intros p Hp Hedge.
    assert (p ∈ dom g) as [np Hnp]%elem_of_dom
      by by eapply topo_inv_in_graph.
    apply (Hdisj chosen); [|done].
    eapply ready_children_emitted; [done..|].
    by apply (wf_children _ Hwf _ _ _ Hnp). }
  intros i j x p Hi Hj Hedge.
  apply lookup_app_Some in Hi as [Hi|[Hil Hi]];
    apply lookup_app_Some in Hj as [Hj|[Hjl Hj]].
  - by eapply Hord.
  - apply lookup_lt_Some in Hi. lia.
  - apply list_lookup_singleton_Some in Hi as [_ <-].
    exfalso. apply (Hno p); [|done].
    apply elem_of_app. left. by eapply list_elem_of_lookup_2.
  - apply list_lookup_singleton_Some in Hi as [_ <-].
    apply list_lookup_singleton_Some in Hj as [_ <-].
    exfalso. apply (Hno chosen); [|done]. set_solver.
Qed.

(** X2. With parents lists free of repetitions, the output of [topo_sort] on
    an acyclic built graph lists every parent strictly after each of its
    children. *)
Lemma topo_sort_ancestry_without_duplicates store branches g branch_heads :
  build_commit_graph store branches = Some (Returns g) →
  acyclic g → parents_nodup g →
  ∃ order,
    topo_sort g branch_heads = Some (Returns order)
    ∧ ∀ X Y i, order !! i = Some X → parent_edge g X Y →
        ∃ j, order !! j = Some Y ∧ (i < j)%nat.
Proof.
  intros Hb Hac Hnd.
  pose proof (build_commit_graph_well_formed _ _ _ Hb) as Hwf.
  destruct (topo_sort_covers_graph store branches g branch_heads Hb Hac)
    as (order & Hs & Hall).
  exists order. split; [done|].
  apply (while_returns _ (λ st, topo_inv g st ∧ ancestry_ordered g (t_order st)))
    in Hs as (st & [Hinv Hord] & Hbr).
  - assert (t_order st = order) as <-.
    { unfold topo_step in Hbr. repeat case_match; by simplify_eq. }
    intros X Y i Hi Hedge.
    assert (Y ∈ t_order st) as [j Hj]%list_elem_of_lookup_1.
    { apply Hall. destruct Hedge as (n & Hn & Hin).
      by apply (wf_parents_closed _ Hwf _ _ _ Hn). }
    exists j. split; [done|]. by eapply Hord.
  - intros st st' [Hinv Hord] Hstep.
    split; [by eapply topo_inv_step|by eapply ancestry_ordered_step].
  - split; [apply topo_inv_init|]. intros i j x p Hi. done.
Qed.

(** C2, at the failing input.  The graph built from [duplicate_store] is
    acyclic and [p01] is in the parents list of [z01], yet [topo_sort]
    returns [p01] before [z01]: the children set of [p01] counts [x01] once
    while the release loop decrements once per entry of the parents list of
    [x01], where [p01] occurs twice. *)
Theorem duplicate_parent_entry_breaks_ancestry :
  build_commit_graph duplicate_store duplicate_branches
  = Some (Returns {[ "x01" := mkCommitNode "x01" ["p01"; "p01"] ∅;
                     "z01" := mkCommitNode "z01" ["p01"] ∅;
                     "p01" := mkCommitNode "p01" [] {["x01"; "z01"]} ]})
  ∧ acyclic (graph_of duplicate_store duplicate_branches)
  ∧ parent_edge (graph_of duplicate_store duplicate_branches) "z01" "p01"
  ∧ topo_sort (graph_of duplicate_store duplicate_branches) ["x01"; "z01"]
    = Some (Returns ["x01"; "p01"; "z01"])
  ∧ ¬ ancestry_ordered (graph_of duplicate_store duplicate_branches)
        ["x01"; "p01"; "z01"].
Proof.
  assert (parent_edge (graph_of duplicate_store duplicate_branches) "z01" "p01")
    as Hedge.
  { exists (mkCommitNode "z01" ["p01"] ∅).
    split; [by vm_compute|in_concrete_list]. }
  split; [vm_compute; reflexivity|]. split; [|split; [done|split]].
  - apply (acyclic_ranked _ duplicate_rank).
    apply (bool_decide_unpack _). vm_compute. exact I.
  - vm_compute. reflexivity.
  - intros Hord. specialize (Hord 2%nat 1%nat "z01" "p01" eq_refl eq_refl Hedge).
    lia.
Qed.

(** ** Claim C4: sticky ends *)

Example disjoint_output :
  render disjoint_store disjoint_branches
  = Some (Returns ["h01 one"; "x01"; "h02 two"; "y01"]).
Proof. vm_compute. reflexivity. Qed.

(** C4 as stated fails: after the root [x01] comes [h02], which is not a parent
    of [x01], and nothing is printed between their lines. *)
Lemma sticky_rule_as_claimed_fails :
  topo_sort (graph_of disjoint_store disjoint_branches) ["h01"; "h02"]
  = Some (Returns ["h01"; "x01"; "h02"; "y01"])
  ∧ print_at (graph_of disjoint_store disjoint_branches)
      ["h01"; "x01"; "h02"; "y01"] (head_to_branches disjoint_branches) 1
    = ["x01"]
  ∧ ¬ sticky_rule_as_claimed (graph_of disjoint_store disjoint_branches)
        ["h01"; "x01"; "h02"; "y01"] (head_to_branches disjoint_branches).
Proof.
  split; [vm_compute; reflexivity|]. split; [vm_compute; reflexivity|].
  intros Hrule. destruct (Hrule 1%nat "x01" "h02" eq_refl eq_refl) as [Hout _].
  assert (print_at (graph_of disjoint_store disjoint_branches)
            ["h01"; "x01"; "h02"; "y01"] (head_to_branches disjoint_branches) 1
          = ["x01"]) as Hcode by (vm_compute; reflexivity).
  rewrite Hcode in Hout. discriminate Hout.
  vm_compute. by intros ?%elem_of_nil.
Qed.

Lemma sticky_unfold g commit next_commit :
  sticky g commit next_commit
  = if decide (parents_at g commit ≠ [] ∧ next_commit ∉ parents_at g commit)
    then sticky_lines g commit next_commit else [].
Proof.
  unfold sticky, sticky_lines, parents_at, children_at.
  destruct (g !! commit) as [node|].
  2:{ rewrite decide_False; [done|]. intros [? _]. done. }
  case_decide; [|done]. do 3 f_equal.
  destruct (g !! next_commit) as [next_node|].
  - case_decide as Hne; [done|].
    rewrite Hne. by vm_compute.
  - by vm_compute.
Qed.

(** C4, amended.  At a non-final position [i]: when the commit at [i] has a
    non-empty parents list that does not contain the commit at [i+1], its
    line is followed by exactly the three sticky lines; when the next commit
    is one of its parents, or when it has no parents, its line is followed
    by nothing.  The block of position [i+1] starts with the next commit's
    line, and the output is the concatenation of the blocks. *)
Theorem sticky_end_rule g order h2b i commit next_commit :
  order !! i = Some commit → order !! (i + 1)%nat = Some next_commit →
  (parents_at g commit ≠ [] → next_commit ∉ parents_at g commit →
     print_at g order h2b i
     = [commit_line h2b commit;
        join " " (sorted (parents_at g commit)) +:+ "=";
        "";
        "=" +:+ join " " (sorted (elements (children_at g next_commit)))])
  ∧ (next_commit ∈ parents_at g commit ∨ parents_at g commit = [] →
     print_at g order h2b i = [commit_line h2b commit])
  ∧ (∃ more, print_at g order h2b (i + 1)
             = commit_line h2b next_commit :: more)
  ∧ ordered_print g order h2b
    = flat_map (print_at g order h2b) (seq 0 (length order)).
Proof.
  intros Hi Hnext. pose proof (lookup_lt_Some _ _ _ Hnext) as Hlt.
  assert (print_at g order h2b i
          = commit_line h2b commit :: sticky g commit next_commit) as Hblock.
  { unfold print_at. rewrite Hi, Hnext, decide_True by lia. done. }
  rewrite Hblock, sticky_unfold. split; [|split; [|split]].
  - intros Hne Hnot. rewrite decide_True by done. done.
  - intros Hcase. rewrite decide_False; [done|]. intros [? ?].
    destruct Hcase; done.
  - unfold print_at. rewrite Hnext. by eexists.
  - done.
Qed.

Example merge_output :
  render merge_store merge_branches
  = Some (Returns ["m01 main"; "z01"; "r01="; ""; "=m01"; "a01"; "r01"]).
Proof. vm_compute. reflexivity. Qed.

Lemma sticky_end_rule_witness :
  print_at (graph_of merge_store merge_branches) ["m01"; "z01"; "a01"; "r01"]
    (head_to_branches merge_branches) 1
  = ["z01"; "r01="; ""; "=m01"].
Proof.
  refine (proj1 (sticky_end_rule (graph_of merge_store merge_branches)
                   ["m01"; "z01"; "a01"; "r01"] (head_to_branches merge_branches)
                   1 "z01" "a01" eq_refl eq_refl) _ _).
  - vm_compute. discriminate.
  - vm_compute. intros Hin. apply list_elem_of_singleton in Hin.
    discriminate Hin.
Defined.

(** ** Claim C5: locating the repository *)

(** C5, at the failing input.  From a subdirectory of a repository the
    metadata directory is discoverable, and [get_git_directory] finds it,
    but the process has already exited with status 1 and the diagnostic:
    [in_git_directory] looks at the working directory only. *)
Theorem subdirectory_of_repository_is_rejected :
  git_discoverable subdirectory_world
  ∧ get_git_directory subdirectory_world = Some ["repo"; ".git"]
  ∧ topo_order_commits subdirectory_world = Exit 1 [] not_a_repository.
Proof.
  split; [|split]; [|vm_compute; reflexivity..].
  exists 1%nat. split; [simpl; lia|]. vm_compute. reflexivity.
Qed.



(** ** Claim C6: absent objects *)

Lemma recorded_parents_raises_present store x e :
  recorded_parents store x = Raises e → ∃ o, store !! x = Some o.
Proof.
  unfold recorded_parents, decompress_git_object.
  destruct (store !! x) as [o|]; [by eauto|done].
Qed.

(** C6 as stated fails on a store with a cycle: [h01] is referenced by [a01] and
    has no object, [a01] and [b01] are each other's parents; the builder returns
    a graph containing [h01], and [topo_sort] returns the empty list. *)
Lemma absent_parent_behind_cycle_not_emitted :
  cyclic_store !! "h01" = None
  ∧ reachable cyclic_store [("b", "a01")].*2 "h01"
  ∧ build_commit_graph cyclic_store [("b", "a01")]
    = Some (Returns (graph_of cyclic_store [("b", "a01")]))
  ∧ "h01" ∈ dom (graph_of cyclic_store [("b", "a01")])
  ∧ topo_sort (graph_of cyclic_store [("b", "a01")]) ["a01"] = Some (Returns [])
  ∧ ¬ ∃ order,
        topo_sort (graph_of cyclic_store [("b", "a01")]) ["a01"]
        = Some (Returns order) ∧ "h01" ∈ order.
Proof.
  assert (topo_sort (graph_of cyclic_store [("b", "a01")]) ["a01"]
          = Some (Returns [])) as Hs by (vm_compute; reflexivity).
  split; [vm_compute; reflexivity|]. split; [|split; [|split; [|split]]].
  - apply (reach_parent _ _ "a01" ["b01"; "h01"]).
    + apply reach_head. in_concrete_list.
    + vm_compute. reflexivity.
    + in_concrete_list.
  - vm_compute. reflexivity.
  - apply elem_of_dom. eexists. vm_compute. reflexivity.
  - done.
  - intros (order & Ho & Hin). rewrite Hs in Ho. clear Hs.
    injection Ho as <-. by apply elem_of_nil in Hin.
Qed.

(** C6, amended.  Let [h] be referenced (reachable from the heads) and have
    no object.  The iteration that expands [h] does not raise: it creates the
    node if needed, pushes nothing and continues.  If the builder raises at
    all it is on an object that is present.  In the graph returned [h] has no
    parents, [topo_sort] returns on that graph, and when the graph is acyclic
    its output contains [h]. *)
Theorem absent_object_is_a_root store branches h branch_heads :
  store !! h = None →
  reachable store branches.*2 h →
  (∀ g visited rest, h ∉ visited →
     build_step store (mkBuild g visited (h :: rest))
     = Continue (mkBuild (ensure_node h g) ({[h]} ∪ visited) rest))
  ∧ (∀ e, build_commit_graph store branches = Some (Raises e) →
       ∃ x o, store !! x = Some o ∧ recorded_parents store x = Raises e)
  ∧ (∀ g, build_commit_graph store branches = Some (Returns g) →
       (∃ n, g !! h = Some n ∧ parents n = [])
       ∧ ∃ order, topo_sort g branch_heads = Some (Returns order)
                  ∧ (acyclic g → h ∈ order)).
Proof.
  intros Habsent Hreach. split; [|split].
  - intros g visited rest Hnv. unfold build_step, decompress_git_object.
    simpl. rewrite decide_False, Habsent by done. done.
  - intros e (x & _ & Hrec)%build_commit_graph_raises.
    destruct (recorded_parents_raises_present _ _ _ Hrec) as [o Ho].
    by exists x, o.
  - intros g Hb.
    pose proof (build_commit_graph_well_formed _ _ _ Hb) as Hwf.
    destruct (build_commit_graph_returns _ _ _ Hb) as (visited & Hv & _ & Hg).
    assert (h ∈ visited) as Hhv by by apply Hv.
    assert (g !! h = Some (expected_node store visited h)) as Hh.
    { by rewrite Hg, decide_True. }
    split.
    + eexists. split; [done|]. simpl. rewrite decide_True by done.
      unfold parents_in, recorded_parents, decompress_git_object.
      by rewrite Habsent.
    + destruct (topo_sort_returns g branch_heads) as [order Hs].
      { intros x n p. apply (wf_parents_closed _ Hwf). }
      exists order. split; [done|]. intros Hac.
      destruct (topo_sort_covers_graph _ _ _ branch_heads Hb Hac)
        as (order' & Hs' & Hall).
      rewrite Hs in Hs'. simplify_eq. apply Hall. apply elem_of_dom. eauto.
Qed.

Lemma absent_object_is_a_root_witness :
  (∃ n, graph_of shallow_store merge_branches !! "r01" = Some n
        ∧ parents n = [])
  ∧ ∃ order,
      topo_sort (graph_of shallow_store merge_branches) ["m01"]
      = Some (Returns order)
      ∧ (acyclic (graph_of shallow_store merge_branches) → "r01" ∈ order).
Proof.
  refine (proj2 (proj2 (absent_object_is_a_root shallow_store merge_branches
                          "r01" ["m01"] _ _))
            (graph_of shallow_store merge_branches) _).
  - vm_compute. reflexivity.
  - apply (reach_parent _ _ "z01" ["r01"]).
    + apply (reach_parent _ _ "m01" ["z01"; "a01"]).
      * apply reach_head. in_concrete_list.
      * vm_compute. reflexivity.
      * in_concrete_list.
    + vm_compute. reflexivity.
    + in_concrete_list.
  - vm_compute. reflexivity.
Defined.

Example shallow_output :
  render shallow_store merge_branches
  = Some (Returns ["m01 main"; "z01"; "r01="; ""; "=m01"; "a01"; "r01"]).
Proof. vm_compute. reflexivity. Qed.

(** ** Claim C7: the order of the branch list *)

Lemma names_of_cons c bc branches :
  names_of c (bc :: branches)
  = if decide (bc.2 = c) then bc.1 :: names_of c branches
    else names_of c branches.
Proof. unfold names_of. rewrite filter_cons. by case_decide. Qed.

Lemma foldl_head_to_branches_lookup c branches : ∀ m : gmap string (list string),
  foldl (λ m bc, <[bc.2 := default [] (m !! bc.2) ++ [bc.1]]> m) m branches !! c
  = if decide (names_of c branches = []) then m !! c
    else Some (default [] (m !! c) ++ names_of c branches).
Proof.
  induction branches as [|[branch commit] branches IH]; intros m; [done|].
  cbn [foldl]. rewrite IH, names_of_cons. cbn [fst snd].
  destruct (decide (commit = c)) as [->|Hne].
  - rewrite lookup_insert_eq. cbn [default].
    rewrite (decide_False (P := _ :: _ = [])) by done.
    clear IH. case_decide as Hnil; [by rewrite Hnil|].
    unfold id. by rewrite <-app_assoc.
  - rewrite lookup_insert_ne by done. done.
Qed.

Lemma head_to_branches_lookup c branches :
  head_to_branches branches !! c
  = if decide (names_of c branches = []) then None
    else Some (names_of c branches).
Proof.
  unfold head_to_branches. rewrite foldl_head_to_branches_lookup.
  by rewrite lookup_empty.
Qed.

Lemma names_of_Permutation c b1 b2 :
  b1 ≡ₚ b2 → names_of c b1 ≡ₚ names_of c b2.
Proof. intros Hp. unfold names_of. by rewrite Hp. Qed.

Lemma commit_line_Permutation b1 b2 c :
  b1 ≡ₚ b2 →
  commit_line (head_to_branches b1) c = commit_line (head_to_branches b2) c.
Proof.
  intros Hp%(names_of_Permutation c). unfold commit_line.
  rewrite !head_to_branches_lookup.
  destruct (decide (names_of c b1 = [])) as [Hnil|Hne].
  - rewrite Hnil in Hp. apply Permutation_nil_l in Hp.
    rewrite decide_True by done. done.
  - rewrite decide_False.
    + by rewrite (sorted_unique _ _ Hp).
    + intros Hnil. rewrite Hnil in Hp. by apply Permutation_nil_r in Hp.
Qed.

Lemma ordered_print_ext g order (h1 h2 : gmap string (list string)) :
  (∀ c, commit_line h1 c = commit_line h2 c) →
  ordered_print g order h1 = ordered_print g order h2.
Proof.
  intros Heq. unfold ordered_print. apply flat_map_ext. intros i.
  unfold print_at. destruct (order !! i); [|done]. by rewrite Heq.
Qed.

Lemma reachable_heads_ext store heads1 heads2 h :
  (∀ x, x ∈ heads1 → x ∈ heads2) →
  reachable store heads1 h → reachable store heads2 h.
Proof.
  intros Hsub. induction 1 as [h Hh|x ps p _ IH Hrec Hp].
  - apply reach_head. by apply Hsub.
  - by eapply reach_parent.
Qed.

Lemma build_commit_graph_Permutation store b1 b2 g :
  b1 ≡ₚ b2 →
  build_commit_graph store b1 = Some (Returns g) →
  build_commit_graph store b2 = Some (Returns g).
Proof.
  intros Hp Hb1.
  assert (∀ h, reachable store b1.*2 h ↔ reachable store b2.*2 h) as Hreach.
  { intros h. split; apply reachable_heads_ext; intros x; by rewrite Hp. }
  destruct (build_commit_graph_returns _ _ _ Hb1) as (v1 & Hv1 & Hgood & Hg1).
  destruct (build_commit_graph_is_Some store b2) as [[g2|e] Hb2].
  - destruct (build_commit_graph_returns _ _ _ Hb2) as (v2 & Hv2 & _ & Hg2).
    assert (v1 = v2) as <-.
    { apply leibniz_equiv. apply set_equiv. intros h.
      by rewrite Hv1, Hv2, Hreach. }
    rewrite Hb2. do 2 f_equal. apply map_eq. intros h.
    by rewrite Hg1, Hg2.
  - apply build_commit_graph_raises in Hb2 as (h & Hh & Hrec).
    apply Hreach, Hv1, Hgood in Hh. by rewrite Hrec in Hh.
Qed.

Lemma render_Permutation store b1 b2 lines :
  b1 ≡ₚ b2 →
  render store b1 = Some (Returns lines) →
  render store b2 = Some (Returns lines).
Proof.
  intros Hp. unfold render.
  destruct (build_commit_graph store b1) as [[g|e]|] eqn:Hb1; [|done..].
  rewrite (build_commit_graph_Permutation _ _ _ _ Hp Hb1).
  unfold topo_sort.
  destruct (while (topo_step g) _ _) as [[order|e]|]; [|done..].
  intros [= <-]. do 2 f_equal. apply ordered_print_ext. intros c.
  by apply commit_line_Permutation.
Qed.

(** C7. The printed output does not depend on the order in which the
    (branch name, head commit) pairs are enumerated: for two permutations of
    one branch list the builder returns the same graph, and whatever lines
    one run prints the other prints too. *)
Theorem output_independent_of_branch_order store b1 b2 :
  b1 ≡ₚ b2 →
  (∀ g, build_commit_graph store b1 = Some (Returns g) →
        build_commit_graph store b2 = Some (Returns g))
  ∧ (∀ lines, render store b1 = Some (Returns lines) →
              render store b2 = Some (Returns lines))
  ∧ printed (render store b1) = printed (render store b2).
Proof.
  intros Hp. split; [|split].
  - intros g. by apply build_commit_graph_Permutation.
  - intros lines. by apply render_Permutation.
  - destruct (render store b1) as [[l1|e1]|] eqn:H1.
    { by rewrite (render_Permutation _ _ _ _ Hp H1). }
    all: destruct (render store b2) as [[l2|e2]|] eqn:H2; try done.
    all: symmetry in Hp; rewrite (render_Permutation _ _ _ _ Hp H2) in H1;
      done.
Qed.

Lemma output_independent_of_branch_order_witness :
  printed (render disjoint_store [("one", "h01"); ("two", "h02")])
  = printed (render disjoint_store [("two", "h02"); ("one", "h01")]).
Proof.
  apply (output_independent_of_branch_order disjoint_store
           [("one", "h01"); ("two", "h02")] [("two", "h02"); ("one", "h01")]).
  apply perm_swap.
Defined.

(** * Further properties of the code *)

(** ** The sequencer on arbitrary graphs *)

Lemma topo_step_throw g st e :
  topo_step g st = Throw e →
  ∃ chosen node p,
    g !! chosen = Some node ∧ p ∈ parents node
    ∧ t_in_degree st !! p = None ∧ e = KeyError p.
Proof.
  unfold topo_step.
  destruct (select g (t_current st) (t_next_choices st))
    as [[chosen rest]|]; [|done].
  destruct (g !! chosen) as [node|] eqn:Hnode; [|done].
  destruct (release _ _ _) as [[deg' next']|e'] eqn:Hrel; [done|].
  intros [= <-]. apply release_raises in Hrel as (p & -> & Hp & Hnone).
  by exists chosen, node, p.
Qed.

(** X1. [topo_sort] terminates on every graph, well formed or not, within
    one iteration per key.  What it returns has no repetition and holds keys
    of the graph only; the only exception it raises is [KeyError], on an
    entry of a parents list that is not a key. *)
Theorem topo_sort_total g branch_heads :
  ∃ r, topo_sort g branch_heads = Some r
    ∧ (match r with
       | Returns order => NoDup order ∧ (∀ c, c ∈ order → c ∈ dom g)
       | Raises e =>
           ∃ x n p, g !! x = Some n ∧ p ∈ parents n ∧ (p ∉ dom g)
                    ∧ e = KeyError p
       end).
Proof.
  destruct (topo_sort_is_Some g branch_heads) as [r Hs]. exists r.
  split; [done|]. destruct r as [order|e].
  - apply topo_sort_final in Hs as (st & Hinv & Hnil & <-).
    pose proof (ti_nodup _ _ Hinv) as Hnd. rewrite Hnil, app_nil_r in Hnd.
    split; [done|]. intros c Hc.
    apply (topo_inv_in_graph g st c Hinv), elem_of_app. by left.
  - apply (while_raises _ (topo_inv g)) in Hs as (st & Hinv & Hthrow);
      [|apply topo_inv_step|apply topo_inv_init].
    apply topo_step_throw in Hthrow as (x & n & p & Hn & Hp & Hnone & ->).
    exists x, n, p. split; [done|]. split; [done|]. split; [|done].
    rewrite (ti_degree _ _ Hinv) in Hnone. unfold expected_degree in Hnone.
    apply not_elem_of_dom. by destruct (g !! p).
Qed.

Lemma merge_graph_parents_nodup :
  parents_nodup (graph_of merge_store merge_branches).
Proof.
  change (map_Forall (λ (_ : string) n, NoDup (parents n))
            (graph_of merge_store merge_branches)).
  apply (bool_decide_unpack _). vm_compute. exact I.
Qed.

Lemma topo_sort_ancestry_without_duplicates_witness :
  ∃ order,
    topo_sort (graph_of merge_store merge_branches) ["m01"]
    = Some (Returns order)
    ∧ ∀ X Y i, order !! i = Some X →
        parent_edge (graph_of merge_store merge_branches) X Y →
        ∃ j, order !! j = Some Y ∧ (i < j)%nat.
Proof.
  apply (topo_sort_ancestry_without_duplicates merge_store merge_branches).
  - exact merge_graph_built.
  - exact merge_graph_acyclic.
  - exact merge_graph_parents_nodup.
Defined.

(** ** What the builder returns and when it raises *)

(** X3. The keys of the graph returned by [build_commit_graph] are exactly
    the identifiers reachable from the branch heads through the parent
    entries of the objects, and the parents list of each node is what the
    object of its key records (nothing for an absent object). *)
Theorem built_graph_keys_and_parents store branches g :
  build_commit_graph store branches = Some (Returns g) →
  (∀ h, h ∈ dom g ↔ reachable store branches.*2 h)
  ∧ (∀ h n, g !! h = Some n → recorded_parents store h = Returns (parents n)).
Proof.
  intros (visited & Hreach & Hgood & Hg)%build_commit_graph_returns.
  assert (∀ h, h ∈ dom g ↔ h ∈ visited) as Hdom.
  { intros h. rewrite elem_of_dom, Hg. case_decide; [by eauto|].
    split; [by intros [? ?]|done]. }
  split.
  - intros h. by rewrite Hdom.
  - intros h n. rewrite Hg. case_decide as Hv; [|done]. intros [= <-].
    simpl. rewrite decide_True by done. by apply Hgood.
Qed.

Lemma built_graph_keys_and_parents_witness :
  (∀ h, h ∈ dom (graph_of merge_store merge_branches)
        ↔ reachable merge_store merge_branches.*2 h)
  ∧ (∀ h n, graph_of merge_store merge_branches !! h = Some n →
       recorded_parents merge_store h = Returns (parents n)).
Proof.
  apply (built_graph_keys_and_parents merge_store merge_branches).
  exact merge_graph_built.
Defined.

(** X4. In the graph returned by [build_commit_graph] every node carries its
    key as [commit_hash], and its children set holds exactly the keys whose
    parents list names it. *)
Theorem built_graph_children_are_converse store branches g :
  build_commit_graph store branches = Some (Returns g) →
  ∀ h n, g !! h = Some n →
    commit_hash n = h
    ∧ ∀ x, x ∈ children n ↔ ∃ nx, g !! x = Some nx ∧ h ∈ parents nx.
Proof.
  intros Hb h n Hn.
  pose proof (build_commit_graph_well_formed _ _ _ Hb) as Hwf.
  split; [|intros x; apply (wf_children _ Hwf _ _ _ Hn)].
  destruct (build_commit_graph_returns _ _ _ Hb) as (visited & _ & _ & Hg).
  rewrite Hg in Hn. case_decide; [|done]. by injection Hn as <-.
Qed.

Lemma built_graph_children_are_converse_witness :
  commit_hash (mkCommitNode "r01" [] {["z01"; "a01"]}) = "r01"
  ∧ ∀ x, x ∈ children (mkCommitNode "r01" [] {["z01"; "a01"]}) ↔
      ∃ nx, graph_of merge_store merge_branches !! x = Some nx
            ∧ "r01" ∈ parents nx.
Proof.
  apply (built_graph_children_are_converse merge_store merge_branches
           (graph_of merge_store merge_branches) merge_graph_built "r01").
  vm_compute. reflexivity.
Defined.

Lemma recorded_parents_raises store h e :
  recorded_parents store h = Raises e → e = IndexError ∨ e = DecodeError.
Proof.
  unfold recorded_parents, decompress_git_object.
  destruct (store !! h) as [[lines|]|]; [|by intros [= <-]; right|done].
  clear. revert e. induction lines as [|line rest IH]; intros e; [done|].
  simpl. destruct (is_parent_line line); [|by apply IH].
  destruct (split line !! 1%nat); [|by intros [= <-]; left].
  destruct (parent_hashes_of rest); [done|]. intros [= <-]. by apply IH.
Qed.

(** X5. [build_commit_graph] raises exactly when some identifier reachable
    from the heads has an object that is present and either unreadable or
    with a [parent ] line that has no second word; the exception is then
    [DecodeError] or [IndexError]. *)
Theorem build_commit_graph_raises_iff store branches :
  ((∃ e, build_commit_graph store branches = Some (Raises e))
   ↔ ∃ h e, reachable store branches.*2 h
            ∧ recorded_parents store h = Raises e)
  ∧ ∀ e, build_commit_graph store branches = Some (Raises e) →
         e = IndexError ∨ e = DecodeError.
Proof.
  split; [split|].
  - intros [e (h & Hh & Hrec)%build_commit_graph_raises]. by exists h, e.
  - intros (h & e & Hh & Hrec).
    destruct (build_commit_graph_is_Some store branches) as [[g|e'] Hb];
      [|by exists e'].
    destruct (build_commit_graph_returns _ _ _ Hb) as (visited & Hv & Hgood & _).
    apply Hv, Hgood in Hh. by rewrite Hrec in Hh.
  - intros e (h & _ & Hrec)%build_commit_graph_raises.
    by eapply recorded_parents_raises.
Qed.

(** ** Branch names on a commit line *)

(** X6. The line printed for a commit is the identifier alone when no branch
    points at it, and otherwise the identifier, a space, and the names of all
    the branches that point at it, sorted and separated by spaces; every
    such name is listed, as many times as it occurs in the branch list. *)
Theorem commit_line_lists_sorted_branch_names branches c :
  commit_line (head_to_branches branches) c
  = if decide (names_of c branches = []) then c
    else c +:+ " " +:+ join " " (sorted (names_of c branches)).
Proof.
  unfold commit_line. rewrite head_to_branches_lookup. by case_decide.
Qed.

(** ** The search for the metadata directory *)

Lemma reverse_eq_nil {A} (l : list A) : reverse l = [] → l = [].
Proof.
  intros H. apply (f_equal reverse) in H. by rewrite reverse_involutive in H.
Qed.

Lemma find_git_up_Some is_dir r p :
  find_git_up is_dir r = Some p ↔
  ∃ s, s ≠ [] ∧ s `suffix_of` r ∧ p = reverse s ++ [".git"]
       ∧ is_dir p = true
       ∧ ∀ s', s `suffix_of` s' → s' `suffix_of` r →
           is_dir (reverse s' ++ [".git"]) = true → s' = s.
Proof.
  induction r as [|c up IH].
  { split; [done|]. intros (s & Hne & Hs%suffix_nil_inv & _). done. }
  cbn [find_git_up].
  destruct (is_dir (reverse (c :: up) ++ [".git"])) eqn:Hdir.
  - split.
    + intros [= <-]. exists (c :: up). split; [done|]. split; [done|].
      split; [done|]. split; [done|]. intros s' Hs Hs' _.
      by apply (anti_symm suffix).
    + intros (s & Hne & Hs & -> & Hp & Hmax).
      by rewrite <-(Hmax (c :: up) Hs (reflexivity _) Hdir).
  - rewrite IH. split.
    + intros (s & Hne & Hs & -> & Hp & Hmax). exists s.
      split; [done|]. split; [by apply suffix_cons_r|].
      split; [done|]. split; [done|]. intros s' Hs1 Hs2 Hd.
      destruct s' as [|x s']; [by apply suffix_nil_inv in Hs1|].
      apply suffix_cons_inv in Hs2 as [Heq|Hs2]; [|by apply Hmax].
      rewrite Heq, Hdir in Hd. done.
    + intros (s & Hne & Hs & -> & Hp & Hmax). exists s.
      destruct s as [|x s]; [done|].
      apply suffix_cons_inv in Hs as [Heq|Hs].
      { rewrite Heq, Hdir in Hp. done. }
      split; [done|]. split; [done|]. split; [done|]. split; [done|].
      intros s' Hs1 Hs2 Hd. apply Hmax; [done| |done].
      by apply suffix_cons_r.
Qed.

Lemma find_git_up_None is_dir r :
  find_git_up is_dir r = None ↔
  ∀ s, s ≠ [] → s `suffix_of` r → is_dir (reverse s ++ [".git"]) = false.
Proof.
  induction r as [|c up IH].
  { split; [|done]. intros _ s Hne Hs%suffix_nil_inv. done. }
  cbn [find_git_up].
  destruct (is_dir (reverse (c :: up) ++ [".git"])) eqn:Hdir.
  - split; [done|]. intros Hall.
    rewrite (Hall (c :: up)) in Hdir; done.
  - rewrite IH. split.
    + intros Hall s Hne Hs. destruct s as [|x s]; [done|].
      apply suffix_cons_inv in Hs as [Heq|Hs]; [by rewrite Heq|].
      by apply Hall.
    + intros Hall s Hne Hs. apply Hall; [done|]. by apply suffix_cons_r.
Qed.

(** X7. [get_git_directory] returns the [.git] of the nearest directory that
    has one among the working directory and its ancestors, the root of the
    file system excepted; it exits (here [None]) exactly when none of these
    directories has one, whether or not the root has. *)
Theorem get_git_directory_nearest w :
  (∀ p, get_git_directory w = Some p ↔
     ∃ dir, dir ≠ [] ∧ dir `prefix_of` cwd w ∧ p = dir ++ [".git"]
            ∧ isdir w p = true
            ∧ ∀ deeper, dir `prefix_of` deeper → deeper `prefix_of` cwd w →
                isdir w (deeper ++ [".git"]) = true → deeper = dir)
  ∧ (get_git_directory w = None ↔
     ∀ dir, dir ≠ [] → dir `prefix_of` cwd w →
       isdir w (dir ++ [".git"]) = false).
Proof.
  unfold get_git_directory. split.
  - intros p. rewrite find_git_up_Some. split.
    + intros (s & Hne & Hs & -> & Hp & Hmax). exists (reverse s).
      split; [by intros ->%reverse_eq_nil|].
      split; [by rewrite prefix_suffix_reverse, reverse_involutive|].
      split; [done|]. split; [done|]. intros deeper Hd1 Hd2 Hdir.
      rewrite <-(Hmax (reverse deeper)).
      * by rewrite reverse_involutive.
      * by rewrite suffix_prefix_reverse, reverse_involutive.
      * by rewrite <-prefix_suffix_reverse.
      * by rewrite reverse_involutive.
    + intros (dir & Hne & Hd & -> & Hp & Hmax). exists (reverse dir).
      split; [by intros ->%reverse_eq_nil|].
      split; [by rewrite <-prefix_suffix_reverse|].
      rewrite reverse_involutive. split; [done|]. split; [done|].
      intros s' Hs1 Hs2 Hdir. rewrite <-(Hmax (reverse s')).
      * by rewrite reverse_involutive.
      * by rewrite prefix_suffix_reverse, reverse_involutive.
      * by rewrite prefix_suffix_reverse, reverse_involutive.
      * done.
  - rewrite find_git_up_None. split.
    + intros Hall dir Hne Hd. rewrite <-(reverse_involutive dir).
      apply Hall; [by intros ->%reverse_eq_nil|].
      by rewrite <-prefix_suffix_reverse.
    + intros Hall s Hne Hs. apply Hall; [by intros ->%reverse_eq_nil|].
      by rewrite prefix_suffix_reverse, reverse_involutive.
Qed.

(** ** The driver *)

Lemma render_is_Some store branches :
  ∃ r, render store branches = Some r
    ∧ (match r with
       | Returns _ => True
       | Raises e => e = IndexError ∨ e = DecodeError
       end).
Proof.
  unfold render.
  destruct (build_commit_graph_is_Some store branches) as [[g|e] Hb];
    rewrite Hb.
  - pose proof (build_commit_graph_well_formed _ _ _ Hb) as Hwf.
    destruct (topo_sort_returns g
                (elements (list_to_set branches.*2 : gset string)))
      as [order ->].
    { intros x n p. apply (wf_parents_closed _ Hwf). }
    by eexists.
  - eexists. split; [done|].
    apply build_commit_graph_raises in Hb as (h & _ & Hrec).
    by eapply recorded_parents_raises.
Qed.

(** X8. Parts 3 to 5 of the driver always terminate; they either print, or
    fail on an object that cannot be read or parsed ([DecodeError],
    [IndexError]): the sequencer never fails on a graph the builder
    returned. *)
Theorem render_terminates_without_KeyError store branches :
  (∃ r, render store branches = Some r)
  ∧ (∀ e, render store branches = Some (Raises e) →
       e = IndexError ∨ e = DecodeError)
  ∧ (∀ key, render store branches ≠ Some (Raises (KeyError key))).
Proof.
  destruct (render_is_Some store branches) as (r & Hr & Hcase).
  split; [by eauto|]. rewrite Hr. split.
  - intros e [= ->]. done.
  - intros key [= ->]. by destruct Hcase.
Qed.


Example repository_world_output :
  topo_order_commits repository_world
  = Exit 0 ["m01 main"; "z01"; "r01="; ""; "=m01"; "a01"; "r01"] "".
Proof. vm_compute. reflexivity. Qed.

(** ** Commits that are emitted although the graph has a cycle *)

Lemma emitted_when_sn g st c :
  well_formed g → topo_inv g st → t_next_choices st = [] →
  sn (flip (parent_edge g)) c → c ∈ dom g → c ∈ t_order st.
Proof.
  intros Hwf Hinv Hnil Hsn.
  induction Hsn as [c _ IH]. intros [n Hn]%elem_of_dom.
  pose proof (all_children_emitted_ready g st c n Hwf Hinv Hn) as Hready.
  rewrite Hnil, app_nil_r in Hready. apply Hready.
  intros x Hx. apply IH.
  - by apply (wf_children _ Hwf _ _ _ Hn).
  - by apply (wf_children_closed _ Hwf _ _ _ Hn).
Qed.

Lemma descendants_sn g c :
  (∀ x, rtc (flip (parent_edge g)) c x → ¬ tc (parent_edge g) x x) →
  sn (flip (parent_edge g)) c.
Proof.
  intros Hfree.
  set (R' := λ x y, flip (parent_edge g) x y
                    ∧ rtc (flip (parent_edge g)) c x).
  assert (∀ a b, tc R' a b → rtc (flip (parent_edge g)) c a) as Hfrom.
  { induction 1 as [? ? [_ ?]|? ? ? [_ ?] _ _]; done. }
  assert (Irreflexive (tc R')) as Hirr.
  { intros x Hx. apply (Hfree x (Hfrom _ _ Hx)), tc_flip.
    eapply (tc_congruence id); [|exact Hx]. by intros ?? [? _]. }
  assert (∀ x, pred_finite (tc R' x)) as Hfin.
  { intros x. exists (elements (dom g)). intros y Hy.
    apply elem_of_elements.
    assert (∃ z, parent_edge g y z) as (z & n & Hn & _);
      [|by apply elem_of_dom; eauto].
    induction Hy as [a b [Hab _]|a b d _ _ IH]; [by exists a|done]. }
  assert (∀ x, sn R' x → rtc (flip (parent_edge g)) c x →
            sn (flip (parent_edge g)) x) as Hgen.
  { induction 1 as [x _ IH]. intros Hcx. constructor. intros y Hxy.
    apply IH; [by split|]. eapply rtc_r; [exact Hcx|exact Hxy]. }
  apply Hgen; [by apply tc_finite_sn|done].
Qed.

(** X10. A key of a built graph is in the output of [topo_sort] whenever
    neither it nor any of its descendants (children, their children, ...)
    lies on a cycle of parent links; the rest of the graph may have
    cycles. *)
Theorem emitted_unless_behind_a_cycle store branches g branch_heads c :
  build_commit_graph store branches = Some (Returns g) →
  c ∈ dom g →
  (∀ x, rtc (flip (parent_edge g)) c x → ¬ tc (parent_edge g) x x) →
  ∃ order, topo_sort g branch_heads = Some (Returns order) ∧ c ∈ order.
Proof.
  intros Hwf%build_commit_graph_well_formed Hc Hfree.
  destruct (topo_sort_returns g branch_heads) as [order Hs].
  { intros x n p. apply (wf_parents_closed _ Hwf). }
  exists order. split; [done|].
  apply topo_sort_final in Hs as (st & Hinv & Hnil & <-).
  apply (emitted_when_sn g); [done..| |done]. by apply descendants_sn.
Qed.

Lemma tc_flip_inv {A} (R : relation A) x y : tc R x y → tc (flip R) y x.
Proof.
  induction 1 as [x y Hxy|x y z Hxy _ IH]; [by apply tc_once|].
  eapply tc_r; [apply IH|apply Hxy].
Qed.

Lemma childless_has_no_descendant g c n :
  well_formed g → g !! c = Some n → children n = ∅ →
  ∀ x, rtc (flip (parent_edge g)) c x → ¬ tc (parent_edge g) x x.
Proof.
  intros Hwf Hn Hempty.
  assert (∀ y, ¬ parent_edge g y c) as Hno.
  { intros y Hy. apply (wf_children _ Hwf _ _ _ Hn) in Hy.
    rewrite Hempty in Hy. by apply not_elem_of_empty in Hy. }
  intros x Hcx Hxx.
  assert (x = c) as ->.
  { inversion Hcx as [|? y ? Hstep _]; [done|]. by apply Hno in Hstep. }
  apply tc_flip_inv in Hxx.
  inversion Hxx as [? ? Hstep|? y ? Hstep _]; by apply Hno in Hstep.
Qed.

Lemma emitted_unless_behind_a_cycle_witness :
  ∃ order,
    topo_sort (graph_of mixed_store mixed_branches) ["a01"; "k01"]
    = Some (Returns order)
    ∧ "k01" ∈ order.
Proof.
  apply (emitted_unless_behind_a_cycle mixed_store mixed_branches).
  - vm_compute. reflexivity.
  - apply elem_of_dom. eexists. vm_compute. reflexivity.
  - apply (childless_has_no_descendant _ _
             (mkCommitNode "k01" ["h01"] ∅)).
    + apply (build_commit_graph_well_formed mixed_store mixed_branches).
      vm_compute. reflexivity.
    + vm_compute. reflexivity.
    + reflexivity.
Defined.

Example mixed_order :
  topo_sort (graph_of mixed_store mixed_branches) ["a01"; "k01"]
  = Some (Returns ["k01"]).
Proof. vm_compute. reflexivity. Qed.

(** ** The shape of the printed output *)

Lemma print_at_cases g order h2b i commit :
  order !! i = Some commit →
  print_at g order h2b i
  = commit_line h2b commit ::
    (if is_sticky g order i
     then match order !! (i + 1)%nat with
          | Some next_commit => sticky_lines g commit next_commit
          | None => []
          end
     else []).
Proof.
  intros Hi. unfold print_at, is_sticky. rewrite Hi. f_equal.
  destruct (order !! (i + 1)%nat) as [next_commit|] eqn:Hnext.
  - apply lookup_lt_Some in Hnext. rewrite decide_True by lia.
    rewrite sticky_unfold. case_decide.
    + by rewrite bool_decide_eq_true_2.
    + by rewrite bool_decide_eq_false_2.
  - by case_decide.
Qed.

Lemma flat_map_length_blocks {B} (f : nat → list B) (P : nat → bool)
    (l : list nat) :
  (∀ i, i ∈ l → length (f i) = if P i then 4%nat else 1%nat) →
  length (flat_map f l)
  = (length l + 3 * length (filter (λ i, P i = true) l))%nat.
Proof.
  induction l as [|a l IH]; intros Hf; [done|].
  cbn [flat_map]. rewrite length_app, filter_cons, IH, Hf; [|set_solver..].
  destruct (P a); case_decide; try done; simpl; lia.
Qed.

Lemma flat_map_singletons {B} (f : nat → list B) (h : nat → B)
    (l : list nat) :
  (∀ i, i ∈ l → f i = [h i]) → flat_map f l = h <$> l.
Proof.
  induction l as [|a l IH]; intros Hf; [done|].
  cbn [flat_map]. rewrite IH, Hf; [done|set_solver..].
Qed.

Lemma fmap_seq_lookup {A B} (F : option A → B) (l : list A) :
  (λ i, F (l !! i)) <$> seq 0 (length l) = (λ x, F (Some x)) <$> l.
Proof.
  induction l as [|x l IH] using rev_ind; [done|].
  rewrite length_app, Nat.add_1_r, seq_S, !fmap_app. cbn [fmap list_fmap].
  rewrite Nat.add_0_l, lookup_app_r, Nat.sub_diag by lia. cbn [lookup].
  simpl. f_equal. rewrite <-IH. apply list_fmap_ext.
  intros i j [-> Hlt]%lookup_seq. by rewrite lookup_app_l.
Qed.

Lemma print_at_length g order h2b i :
  i ∈ seq 0 (length order) →
  length (print_at g order h2b i)
  = if is_sticky g order i then 4%nat else 1%nat.
Proof.
  intros [_ Hlt]%elem_of_seq.
  destruct (lookup_lt_is_Some_2 order i) as [commit Hi]; [lia|].
  rewrite (print_at_cases _ _ _ _ _ Hi).
  destruct (is_sticky g order i) eqn:Hst; [|done].
  unfold is_sticky in Hst. rewrite Hi in Hst.
  by destruct (order !! (i + 1)%nat).
Qed.

Lemma ordered_print_plain g order h2b :
  (∀ i, is_sticky g order i = false) →
  ordered_print g order h2b = commit_line h2b <$> order.
Proof.
  intros Hno. unfold ordered_print.
  rewrite (flat_map_singletons _
             (λ i, commit_line h2b (default "" (order !! i)))).
  - apply (fmap_seq_lookup (λ o, commit_line h2b (default "" o))).
  - intros i [_ Hlt]%elem_of_seq.
    destruct (lookup_lt_is_Some_2 order i) as [commit Hi]; [lia|].
    by rewrite (print_at_cases _ _ _ _ _ Hi), Hno, Hi.
Qed.

(** X11. [ordered_print] prints one line per commit plus three lines for
    every position followed by a sticky end, that is, where the commit has a
    non-empty parents list that does not contain the next commit.  The output
    is the bare list of commit lines exactly when no position is of that
    kind. *)
Theorem ordered_print_shape g order h2b :
  length (ordered_print g order h2b)
  = (length order
     + 3 * length (filter (λ i, is_sticky g order i = true)
                     (seq 0 (length order))))%nat
  ∧ ((∀ i, is_sticky g order i = false)
     ↔ ordered_print g order h2b = commit_line h2b <$> order).
Proof.
  assert (length (ordered_print g order h2b)
          = (length order
             + 3 * length (filter (λ i, is_sticky g order i = true)
                             (seq 0 (length order))))%nat) as Hlen.
  { unfold ordered_print.
    rewrite (flat_map_length_blocks _ (is_sticky g order)), length_seq;
      [done|]. apply print_at_length. }
  split; [done|]. split; [apply ordered_print_plain|].
  - intros Heq i. rewrite Heq, length_fmap in Hlen.
    destruct (is_sticky g order i) eqn:Hst; [|done].
    assert (i ∈ filter (λ i, is_sticky g order i = true)
                  (seq 0 (length order))) as Hin.
    { apply list_elem_of_filter. split; [done|]. apply elem_of_seq.
      unfold is_sticky in Hst.
      destruct (order !! i) eqn:Hi; [|done].
      apply lookup_lt_Some in Hi. lia. }
    destruct (filter _ _); [by apply elem_of_nil in Hin|]. simpl in Hlen. lia.
Qed.

(** ** Linear histories *)

Lemma topo_sort_ancestry_ordered g branch_heads :
  well_formed g → acyclic g → parents_nodup g →
  ∃ order,
    topo_sort g branch_heads = Some (Returns order)
    ∧ NoDup order ∧ (∀ c, c ∈ order ↔ c ∈ dom g)
    ∧ ancestry_ordered g order.
Proof.
  intros Hwf Hac Hnd.
  destruct (topo_sort_returns g branch_heads) as [order Hs].
  { intros x n p. apply (wf_parents_closed _ Hwf). }
  exists order. split; [done|].
  apply (while_returns _
           (λ st, topo_inv g st ∧ ancestry_ordered g (t_order st)))
    in Hs as (st & [Hinv Hord] & Hbr).
  - assert (t_next_choices st = [] ∧ t_order st = order) as [Hnil <-].
    { unfold topo_step in Hbr.
      destruct (select g (t_current st) (t_next_choices st))
        as [[chosen rest]|] eqn:Hsel.
      - repeat case_match; done.
      - apply select_None in Hsel. by simplify_eq. }
    pose proof (ti_nodup _ _ Hinv) as Hno. rewrite Hnil, app_nil_r in Hno.
    split; [done|]. split; [|done]. intros c. split.
    + intros Hc. apply (topo_inv_in_graph g st c Hinv), elem_of_app. by left.
    + by apply all_emitted.
  - intros st st' [Hinv Hord] Hstep.
    split; [by eapply topo_inv_step|by eapply ancestry_ordered_step].
  - split; [apply topo_inv_init|]. intros i j x p Hi. done.
Qed.

Lemma consecutive_order_unique (l : list string) : ∀ order : list string,
  NoDup l → NoDup order → (∀ c, c ∈ order ↔ c ∈ l) →
  (∀ i x y, l !! i = Some x → l !! S i = Some y →
     ∃ a b, order !! a = Some x ∧ order !! b = Some y ∧ (a < b)%nat) →
  order = l.
Proof.
  induction l as [|x l IH]; intros order Hl Ho Hmem Hcons.
  { destruct order as [|o order]; [done|].
    exfalso. apply (not_elem_of_nil o), Hmem. by left. }
  destruct order as [|o order].
  { exfalso. apply (not_elem_of_nil x), Hmem. by left. }
  apply NoDup_cons in Hl as [Hxl Hl]. apply NoDup_cons in Ho as [Hoo Ho'].
  assert (o = x) as ->.
  { assert (o ∈ x :: l) as [?|Hin]%elem_of_cons by (apply Hmem; by left);
      [done|].
    apply list_elem_of_lookup_1 in Hin as [j Hj].
    destruct (lookup_lt_is_Some_2 (x :: l) j) as [y Hy].
    { apply lookup_lt_Some in Hj. simpl. lia. }
    destruct (Hcons j y o Hy Hj) as (a & b & _ & Hb & Hlt).
    destruct b as [|b]; [lia|]. simpl in Hb.
    exfalso. apply Hoo. by eapply list_elem_of_lookup_2. }
  f_equal. apply IH; [done..| |].
  - intros c. split; intros Hc.
    + assert (c ∈ x :: l) as [->|?]%elem_of_cons
        by (apply Hmem; by right); done.
    + assert (c ∈ x :: order) as [->|?]%elem_of_cons
        by (apply Hmem; by right); done.
  - intros i a' b' Ha Hb.
    destruct (Hcons (S i) a' b' Ha Hb) as (a & b & Hoa & Hob & Hlt).
    assert (a' ≠ x).
    { intros ->. apply Hxl. by eapply list_elem_of_lookup_2. }
    assert (b' ≠ x).
    { intros ->. apply Hxl. by eapply list_elem_of_lookup_2. }
    destruct a as [|a]; [by simplify_eq/=|].
    destruct b as [|b]; [by simplify_eq/=|].
    exists a, b. simpl in *. split; [done|]. split; [done|lia].
Qed.

Lemma names_of_all c branches :
  (∀ bc, bc ∈ branches → bc.2 = c) → names_of c branches = branches.*1.
Proof.
  induction branches as [|bc branches IH]; intros Hall; [done|].
  rewrite names_of_cons, decide_True by (apply Hall; by left).
  rewrite IH; [done|]. intros bc' Hin. apply Hall. by right.
Qed.

Lemma names_of_none c branches :
  (∀ bc, bc ∈ branches → bc.2 ≠ c) → names_of c branches = [].
Proof.
  induction branches as [|bc branches IH]; intros Hall; [done|].
  rewrite names_of_cons, decide_False by (apply Hall; by left).
  apply IH. intros bc' Hin. apply Hall. by right.
Qed.

Lemma elem_of_option_list {A} (x : A) (o : option A) :
  x ∈ option_list o ↔ o = Some x.
Proof.
  destruct o as [y|]; simpl.
  - rewrite list_elem_of_singleton. naive_solver.
  - split; [by intros ?%elem_of_nil|done].
Qed.

Lemma commit_line_lists_names branches c :
  commit_line (head_to_branches branches) c
  = if decide (names_of c branches = []) then c
    else c +:+ " " +:+ join " " (sorted (names_of c branches)).
Proof.
  unfold commit_line. rewrite head_to_branches_lookup. by case_decide.
Qed.

Lemma linear_history_reachable store (branches : list (string * string))
    c0 chain :
  linear_history store (c0 :: chain) → branches ≠ [] →
  (∀ bc, bc ∈ branches → bc.2 = c0) →
  ∀ h, reachable store branches.*2 h ↔ h ∈ c0 :: chain.
Proof.
  intros [Hnd Hrec] Hne Hall h. split.
  - induction 1 as [h Hh|x ps p _ IH Hx Hp].
    + apply list_elem_of_fmap in Hh as (bc & -> & Hbc).
      rewrite (Hall bc Hbc). by left.
    + apply list_elem_of_lookup_1 in IH as [i Hi].
      rewrite (Hrec i x Hi) in Hx. injection Hx as <-.
      apply elem_of_option_list in Hp.
      by apply (list_elem_of_lookup_2 _ (S i)).
  - intros [i Hi]%list_elem_of_lookup_1. revert h Hi.
    induction i as [|i IH]; intros h Hi.
    + injection Hi as <-. destruct branches as [|bc branches]; [done|].
      apply reach_head. rewrite <-(Hall bc) by by left.
      apply list_elem_of_fmap. exists bc. split; [done|by left].
    + destruct (lookup_lt_is_Some_2 (c0 :: chain) i) as [x Hx].
      { apply lookup_lt_Some in Hi. lia. }
      eapply reach_parent; [by apply IH|by apply Hrec|].
      by apply elem_of_option_list.
Qed.

(** X12. Mainline continuity.  When the objects form a linear history
    [c0, c1, ..., cn] and every branch points at [c0], the driver prints
    [c0] with the sorted branch names and then [c1] to [cn], one identifier
    per line, in that order, without any sticky end. *)
Theorem linear_history_is_printed_as_is store
    (branches : list (string * string)) c0 chain :
  linear_history store (c0 :: chain) → branches ≠ [] →
  (∀ bc, bc ∈ branches → bc.2 = c0) →
  render store branches
  = Some (Returns ((c0 +:+ " " +:+ join " " (sorted branches.*1)) :: chain)).
Proof.
  intros Hlin Hne Hall.
  pose proof (linear_history_reachable _ _ _ _ Hlin Hne Hall) as Hreach.
  destruct Hlin as [Hnd Hrec].
  destruct (build_commit_graph_is_Some store branches) as [[g|e] Hb].
  2:{ apply build_commit_graph_raises in Hb as (h & Hh & Hraise).
      apply Hreach, list_elem_of_lookup_1 in Hh as [i Hi].
      by rewrite (Hrec i h Hi) in Hraise. }
  pose proof (build_commit_graph_well_formed _ _ _ Hb) as Hwf.
  destruct (build_commit_graph_returns _ _ _ Hb) as (visited & Hv & Hgood & Hg).
  assert (∀ h, h ∈ dom g ↔ h ∈ c0 :: chain) as Hdom.
  { intros h. rewrite <-Hreach, <-Hv, elem_of_dom, Hg.
    case_decide; [by eauto|]. split; [by intros [? ?]|done]. }
  assert (∀ i c n, (c0 :: chain) !! i = Some c → g !! c = Some n →
            parents n = option_list ((c0 :: chain) !! S i)) as Hpar.
  { intros i c n Hi. rewrite Hg. case_decide as Hcv; [|done].
    intros [= <-]. simpl. rewrite decide_True by done.
    apply parents_in_recorded. by apply Hrec. }
  assert (∀ x p, parent_edge g x p →
            ∃ i, (c0 :: chain) !! i = Some x
                 ∧ (c0 :: chain) !! S i = Some p) as Hedge.
  { intros x p (n & Hn & Hp).
    assert (x ∈ c0 :: chain) as [i Hi]%list_elem_of_lookup_1.
    { apply Hdom, elem_of_dom. eauto. }
    exists i. split; [done|]. rewrite (Hpar i x n Hi Hn) in Hp.
    by apply elem_of_option_list in Hp. }
  assert (acyclic g) as Hac.
  { assert (∀ x y, tc (parent_edge g) x y →
              ∃ i j, (c0 :: chain) !! i = Some x
                     ∧ (c0 :: chain) !! j = Some y ∧ (i < j)%nat) as Htc.
    { induction 1 as [x y Hxy|x y z Hxy _ (j & k & Hj & Hk & Hlt)].
      - apply Hedge in Hxy as (i & Hi & Hsi). exists i, (S i). eauto.
      - apply Hedge in Hxy as (i & Hi & Hsi).
        assert (S i = j) as <- by by eapply NoDup_lookup.
        exists i, k. split; [done|]. split; [done|lia]. }
    intros x (i & j & Hi & Hj & Hlt)%Htc.
    assert (i = j) by by eapply NoDup_lookup. lia. }
  assert (parents_nodup g) as Hpnd.
  { intros x n Hn.
    assert (x ∈ c0 :: chain) as [i Hi]%list_elem_of_lookup_1.
    { apply Hdom, elem_of_dom. eauto. }
    rewrite (Hpar i x n Hi Hn).
    destruct (_ !! S i); simpl; [apply NoDup_singleton|constructor]. }
  destruct (topo_sort_ancestry_ordered g
              (elements (list_to_set branches.*2 : gset string)) Hwf Hac Hpnd)
    as (order & Hs & Hno & Hmem & Hord).
  assert (order = c0 :: chain) as ->.
  { apply consecutive_order_unique; [done..| |].
    - intros c. by rewrite Hmem, Hdom.
    - intros i x y Hi Hsi.
      assert (parent_edge g x y) as Hxy.
      { assert (x ∈ dom g) as [n Hn]%elem_of_dom.
        { apply Hdom. by eapply list_elem_of_lookup_2. }
        exists n. split; [done|]. rewrite (Hpar i x n Hi Hn).
        by apply elem_of_option_list. }
      assert (x ∈ order) as [a Ha]%list_elem_of_lookup_1.
      { apply Hmem, Hdom. by eapply list_elem_of_lookup_2. }
      assert (y ∈ order) as [b Hb']%list_elem_of_lookup_1.
      { apply Hmem, Hdom. by eapply list_elem_of_lookup_2. }
      exists a, b. split; [done|]. split; [done|]. by eapply Hord. }
  unfold render. rewrite Hb, Hs. do 2 f_equal.
  rewrite ordered_print_plain.
  - cbn [fmap list_fmap]. f_equal.
    + rewrite commit_line_lists_names, names_of_all by done.
      rewrite decide_False; [done|].
      destruct branches; [done|]. done.
    + rewrite <-(list_fmap_id chain) at 2. apply list_fmap_ext.
      intros i c Hc. rewrite commit_line_lists_names, names_of_none; [done|].
      intros bc Hbc Heq. rewrite (Hall bc Hbc) in Heq. subst c.
      apply NoDup_cons in Hnd as [Hnotin _]. apply Hnotin.
      by eapply list_elem_of_lookup_2.
  - intros i. unfold is_sticky.
    destruct ((c0 :: chain) !! i) as [c|] eqn:Hi; [|done].
    destruct ((c0 :: chain) !! (i + 1)%nat) as [nx|] eqn:Hsi; [|done].
    apply bool_decide_eq_false_2. intros [_ Hnot]. apply Hnot.
    assert (c ∈ dom g) as [n Hn]%elem_of_dom.
    { apply Hdom. by eapply list_elem_of_lookup_2. }
    rewrite (parents_at_lookup _ _ _ Hn), (Hpar i c n Hi Hn).
    rewrite Nat.add_1_r in Hsi. by apply elem_of_option_list.
Qed.

Lemma chain_store_linear : linear_history chain_store ["c01"; "c02"; "c03"].
Proof.
  split.
  - apply (bool_decide_unpack _). vm_compute. exact I.
  - intros [|[|[|i]]] c Hc; try done; injection Hc as <-;
      vm_compute; reflexivity.
Qed.

Lemma linear_history_is_printed_as_is_witness :
  render chain_store [("main", "c01"); ("dev", "c01")]
  = Some (Returns ["c01" +:+ " " +:+ join " " (sorted ["main"; "dev"]);
                   "c02"; "c03"]).
Proof.
  apply (linear_history_is_printed_as_is chain_store
           [("main", "c01"); ("dev", "c01")] "c01" ["c02"; "c03"]).
  - exact chain_store_linear.
  - discriminate.
  - intros bc Hbc. apply elem_of_cons in Hbc as [->|Hbc]; [done|].
    apply list_elem_of_singleton in Hbc as ->. done.
Defined.

Example chain_output :
  render chain_store [("main", "c01"); ("dev", "c01")]
  = Some (Returns ["c01 dev main"; "c02"; "c03"]).
Proof. vm_compute. reflexivity. Qed.

(** ** Parsing the parent entries of an object *)

Lemma string_app_cons c s1 s2 : String c s1 +:+ s2 = String c (s1 +:+ s2).
Proof. reflexivity. Qed.

Lemma string_app_nil_l s : "" +:+ s = s.
Proof. reflexivity. Qed.

Lemma string_app_nil_r s : s +:+ "" = s.
Proof.
  induction s as [|c s IH]; [done|]. by rewrite string_app_cons, IH.
Qed.

Lemma string_app_assoc s1 s2 s3 : (s1 +:+ s2) +:+ s3 = s1 +:+ (s2 +:+ s3).
Proof.
  induction s1 as [|c s1 IH]; [done|]. by rewrite !string_app_cons, IH.
Qed.

Lemma string_app_nil_inv s1 s2 : s1 +:+ s2 = "" → s1 = "" ∧ s2 = "".
Proof. destruct s1; [done|]. by rewrite string_app_cons. Qed.

Lemma split_from_word tok w s :
  no_space w = true → split_from tok (w +:+ s) = split_from (tok +:+ w) s.
Proof.
  revert tok. induction w as [|c w IH]; intros tok Hw.
  { by rewrite string_app_nil_r. }
  cbn in Hw. apply andb_true_iff in Hw as [Hc Hw].
  apply negb_true_iff in Hc. rewrite string_app_cons.
  cbn [split_from]. rewrite Hc, IH by done.
  by rewrite string_app_assoc.
Qed.

Lemma split_from_nonempty tok s : tok ≠ "" → split_from tok s ≠ [].
Proof.
  revert tok. induction s as [|c s IH]; intros tok Htok; cbn.
  - by rewrite decide_False.
  - destruct (is_space c); [by rewrite decide_False|].
    apply IH. by intros [? ?]%string_app_nil_inv.
Qed.

Lemma split_from_nil s : split_from "" s = [] ↔ all_space s = true.
Proof.
  induction s as [|c s IH]; cbn; [done|].
  destruct (is_space c); simpl; [done|].
  split; [|done]. intros Hnil. by apply split_from_nonempty in Hnil.
Qed.

Lemma split_parent_line rest :
  split ("parent " +:+ rest) = "parent" :: split rest.
Proof.
  unfold split.
  change ("parent " +:+ rest) with ("parent" +:+ String " " rest).
  rewrite split_from_word by done. cbn. by rewrite decide_False.
Qed.

Lemma split_word w : is_word w → split w = [w].
Proof.
  intros [Hne Hw]. unfold split. rewrite <-(string_app_nil_r w) at 1.
  rewrite split_from_word by done. cbn. by rewrite decide_False.
Qed.

Lemma is_parent_line_app rest : is_parent_line ("parent " +:+ rest) = true.
Proof. unfold is_parent_line. cbn. by destruct rest. Qed.

Lemma is_parent_line_inv line :
  is_parent_line line = true → ∃ rest, line = "parent " +:+ rest.
Proof.
  unfold is_parent_line. intros Hp.
  apply prefix_correct in Hp. cbn in Hp.
  do 7 (destruct line as [|? line]; [done|]). cbn in Hp.
  assert (substring 0 0 line = "") as Hz by by destruct line.
  rewrite Hz in Hp. injection Hp as -> -> -> -> -> -> ->. by exists line.
Qed.

Lemma parent_hashes_of_app l1 l2 :
  parent_hashes_of (l1 ++ l2)
  = match parent_hashes_of l1 with
    | Returns a =>
        match parent_hashes_of l2 with
        | Returns b => Returns (a ++ b)
        | Raises e => Raises e
        end
    | Raises e => Raises e
    end.
Proof.
  induction l1 as [|line l1 IH]; simpl.
  { by destruct (parent_hashes_of l2). }
  destruct (is_parent_line line); [|done].
  destruct (split line !! 1%nat); [|done]. rewrite IH.
  destruct (parent_hashes_of l1); [|done].
  by destruct (parent_hashes_of l2).
Qed.

Lemma parent_hashes_of_none lines :
  Forall (λ l, is_parent_line l = false) lines →
  parent_hashes_of lines = Returns [].
Proof.
  induction 1 as [|line lines Hl _ IH]; [done|]. simpl. by rewrite Hl.
Qed.

Lemma parent_hashes_of_entries hs :
  Forall is_word hs →
  parent_hashes_of ((λ h, "parent " +:+ h) <$> hs) = Returns hs.
Proof.
  induction 1 as [|h hs Hh _ IH]; [done|].
  cbn [fmap list_fmap parent_hashes_of].
  rewrite is_parent_line_app, split_parent_line, (split_word h Hh).
  cbn [lookup list_lookup]. fold (fmap (M := list) (λ h, "parent " +:+ h) hs).
  by rewrite IH.
Qed.

(** X13. Reading back what a commit object states.  When the lines that
    start with [parent ] are the parent entries [parent h1], ..., [parent hn]
    of the header, each [hi] a non-empty identifier without white space, and
    no other line before or after starts with [parent ], the builder's
    parser returns [h1; ...; hn], in that order. *)
Theorem parent_entries_round_trip before hs after :
  Forall is_word hs →
  Forall (λ l, is_parent_line l = false) before →
  Forall (λ l, is_parent_line l = false) after →
  parent_hashes_of (before ++ ((λ h, "parent " +:+ h) <$> hs) ++ after)
  = Returns hs.
Proof.
  intros Hhs Hb Ha.
  rewrite !parent_hashes_of_app, (parent_hashes_of_none _ Hb).
  rewrite (parent_hashes_of_entries _ Hhs), (parent_hashes_of_none _ Ha).
  by rewrite app_nil_r.
Qed.

Lemma parent_entries_round_trip_witness :
  parent_hashes_of
    (["tree t"] ++ ((λ h, "parent " +:+ h) <$> ["z01"; "a01"])
     ++ ["author x"; ""; "merge"])
  = Returns ["z01"; "a01"].
Proof.
  apply (parent_entries_round_trip ["tree t"] ["z01"; "a01"]
           ["author x"; ""; "merge"]).
  - repeat constructor; discriminate.
  - repeat constructor.
  - repeat constructor.
Defined.

(** X14. The parser raises exactly when some line consists of [parent ]
    followed by nothing but white space (the list index is then out of
    range), and the exception is always [IndexError]; the position of the
    line in the object, header or message, plays no role. *)
Theorem parent_hashes_of_raises_iff lines :
  ((∃ e, parent_hashes_of lines = Raises e)
   ↔ ∃ rest, ("parent " +:+ rest) ∈ lines ∧ all_space rest = true)
  ∧ ∀ e, parent_hashes_of lines = Raises e → e = IndexError.
Proof.
  assert (∀ e, parent_hashes_of lines = Raises e → e = IndexError) as Hidx.
  { induction lines as [|line lines IH]; intros e; simpl; [done|].
    destruct (is_parent_line line); [|by apply IH].
    destruct (split line !! 1%nat); [|by intros [= <-]].
    destruct (parent_hashes_of lines); [done|].
    intros [= <-]. by apply IH. }
  split; [|done]. clear Hidx. induction lines as [|line lines IH]; simpl.
  { split; [by intros [? ?]|]. by intros (rest & ?%elem_of_nil & _). }
  destruct (is_parent_line line) eqn:Hpl.
  - apply is_parent_line_inv in Hpl as [rest ->].
    rewrite split_parent_line. cbn [lookup list_lookup].
    destruct (split rest) as [|h more] eqn:Hsplit; cbn [lookup list_lookup].
    + split; [intros _|by eauto]. exists rest. split; [by left|].
      by apply split_from_nil.
    + assert (all_space rest = false) as Hrest.
      { apply not_true_is_false. intros Hall%split_from_nil.
        unfold split in Hsplit. by rewrite Hall in Hsplit. }
      destruct (parent_hashes_of lines) as [hs|e].
      * split; [by intros [? ?]|]. intros (rest' & Hin & Hall).
        apply elem_of_cons in Hin as [Heq|Hin].
        { apply (inj _) in Heq. subst rest'. by rewrite Hrest in Hall. }
        assert (∃ e, Returns hs = Raises e) as [? ?]; [|done].
        apply IH. by exists rest'.
      * split; [intros _|by eauto].
        destruct (proj1 IH) as (rest' & Hin & Hall); [by eauto|].
        exists rest'. split; [by right|done].
  - rewrite IH. split.
    + intros (rest & Hin & Hall). exists rest. split; [by right|done].
    + intros (rest & Hin & Hall). exists rest. split; [|done].
      apply elem_of_cons in Hin as [<-|Hin]; [|done].
      by rewrite is_parent_line_app in Hpl.
Qed.

(** ** Where an object is read from *)

Lemma take_drop_str n s : take_str n s +:+ drop_str n s = s.
Proof.
  revert s. induction n as [|n IH]; intros [|c s]; try done.
  cbn [take_str drop_str]. by rewrite string_app_cons, IH.
Qed.

Lemma no_slash_take n s : no_slash s = true → no_slash (take_str n s) = true.
Proof.
  revert s. induction n as [|n IH]; intros [|c s]; try done.
  cbn [no_slash take_str]. intros [Hc Hs]%andb_true_iff.
  rewrite Hc. by apply IH.
Qed.

Lemma no_slash_drop n s : no_slash s = true → no_slash (drop_str n s) = true.
Proof.
  revert s. induction n as [|n IH]; intros [|c s]; try done.
  cbn [no_slash drop_str]. intros [Hc Hs]%andb_true_iff. by apply IH.
Qed.

Lemma no_slash_prefix s : no_slash s = true → String.prefix "/" s = false.
Proof.
  destruct s as [|c s]; [done|]. cbn [no_slash].
  intros [Hc _]%andb_true_iff. apply negb_true_iff, Ascii.eqb_neq in Hc.
  change (String.prefix "/" (String c s))
    with (if ascii_dec "/" c then String.prefix "" s else false).
  destruct (ascii_dec "/" c) as [<-|]; done.
Qed.

Lemma no_slash_ends s : no_slash s = true → ends_with_slash s = false.
Proof.
  induction s as [|c s IH]; [done|]. cbn [no_slash ends_with_slash].
  intros [Hc Hs]%andb_true_iff.
  destruct s; [by apply negb_true_iff|by apply IH].
Qed.

Lemma ends_with_slash_app s1 s2 :
  s2 ≠ "" → ends_with_slash (s1 +:+ s2) = ends_with_slash s2.
Proof.
  intros Hne. induction s1 as [|c s1 IH]; [done|].
  rewrite string_app_cons. cbn [ends_with_slash].
  destruct (s1 +:+ s2) eqn:Happ; [|done].
  by apply string_app_nil_inv in Happ as [_ ?].
Qed.

Lemma path_join2_plain path b :
  path ≠ "" → ends_with_slash path = false → String.prefix "/" b = false →
  path_join2 path b = path +:+ "/" +:+ b.
Proof.
  intros Hne Hend Hpre. unfold path_join2.
  by rewrite Hpre, decide_False, Hend.
Qed.

Lemma split_at_slash t1 t2 d1 d2 :
  no_slash t1 = true → no_slash t2 = true →
  t1 +:+ "/" +:+ d1 = t2 +:+ "/" +:+ d2 → t1 = t2 ∧ d1 = d2.
Proof.
  change ("/" +:+ d1) with (String "/" d1).
  change ("/" +:+ d2) with (String "/" d2).
  revert t2. induction t1 as [|c t1 IH]; intros [|c2 t2] H1 H2 Heq.
  - change (String "/" d1 = String "/" d2) in Heq. by injection Heq as ->.
  - change (String "/" d1 = String c2 (t2 +:+ String "/" d2)) in Heq.
    injection Heq as <- _. done.
  - change (String c (t1 +:+ String "/" d1) = String "/" d2) in Heq.
    injection Heq as -> _. done.
  - change (String c (t1 +:+ String "/" d1)
            = String c2 (t2 +:+ String "/" d2)) in Heq.
    injection Heq as -> Heq.
    cbn [no_slash] in H1, H2. apply andb_true_iff in H1 as [_ H1].
    apply andb_true_iff in H2 as [_ H2].
    destruct (IH t2 H1 H2 Heq) as [-> ->]. done.
Qed.

Lemma object_path_plain git_dir h :
  git_dir ≠ "" → ends_with_slash git_dir = false →
  h ≠ "" → no_slash h = true →
  object_path git_dir h
  = git_dir +:+ "/objects/" +:+ take_str 2 h +:+ "/" +:+ drop_str 2 h.
Proof.
  intros Hne Hend Hh Hns. unfold object_path, os_path_join. cbn [foldl].
  rewrite (path_join2_plain git_dir "objects") by done.
  rewrite (path_join2_plain _ (take_str 2 h)).
  - rewrite (path_join2_plain _ (drop_str 2 h)).
    + by rewrite !string_app_assoc.
    + intros [_ [? _]%string_app_nil_inv]%string_app_nil_inv. done.
    + rewrite ends_with_slash_app.
      * rewrite ends_with_slash_app by (by destruct h).
        by apply no_slash_ends, no_slash_take.
      * by rewrite string_app_cons.
    + by apply no_slash_prefix, no_slash_drop.
  - intros [? _]%string_app_nil_inv. done.
  - by rewrite ends_with_slash_app.
  - by apply no_slash_prefix, no_slash_take.
Qed.

(** X15. The file [decompress_git_object] opens.  For a metadata directory
    that does not end with a slash and identifiers without slash, the path
    is [<git_dir>/objects/<first two characters>/<rest>], and two distinct
    identifiers never name the same file.  An identifier whose third
    character is a slash names no file of the repository: [os.path.join]
    then drops everything before its remainder. *)
Theorem object_path_of_identifier git_dir h1 h2 :
  git_dir ≠ "" → ends_with_slash git_dir = false →
  h1 ≠ "" → no_slash h1 = true → h2 ≠ "" → no_slash h2 = true →
  object_path git_dir h1
  = git_dir +:+ "/objects/" +:+ take_str 2 h1 +:+ "/" +:+ drop_str 2 h1
  ∧ (object_path git_dir h1 = object_path git_dir h2 → h1 = h2)
  ∧ (∀ h, String.prefix "/" (drop_str 2 h) = true →
       object_path git_dir h = drop_str 2 h).
Proof.
  intros Hne Hend Hh1 Hn1 Hh2 Hn2. split; [by apply object_path_plain|].
  split.
  - rewrite !object_path_plain by done. intros Heq.
    apply (inj _), (inj _), split_at_slash in Heq as [Ht Hd];
      [|by apply no_slash_take..].
    by rewrite <-(take_drop_str 2 h1), <-(take_drop_str 2 h2), Ht, Hd.
  - intros h Hpre. unfold object_path, os_path_join. cbn [foldl].
    unfold path_join2 at 1. by rewrite Hpre.
Qed.

Lemma object_path_of_identifier_witness :
  object_path "/repo/.git" "m01" = "/repo/.git/objects/m0/1"
  ∧ (object_path "/repo/.git" "m01" = object_path "/repo/.git" "z01" →
     "m01" = "z01")
  ∧ (∀ h, String.prefix "/" (drop_str 2 h) = true →
       object_path "/repo/.git" h = drop_str 2 h).
Proof.
  apply (object_path_of_identifier "/repo/.git" "m01" "z01");
    first [discriminate | reflexivity].
Defined.

Example object_path_escapes :
  object_path "/repo/.git" "ab/etc/passwd" = "/etc/passwd".
Proof. reflexivity. Qed.

(** ** Reading the head of a branch *)

Lemma readline_word w rest :
  no_space w = true →
  readline (w +:+ rest) = w +:+ readline rest.
Proof.
  induction w as [|c w IH]; [done|]. cbn [no_space].
  intros [Hc Hw]%andb_true_iff. apply negb_true_iff in Hc.
  rewrite !string_app_cons. cbn [readline].
  assert (is_newline c = false) as ->; [|by rewrite IH].
  unfold is_newline. apply orb_false_iff.
  split; apply Ascii.eqb_neq; intros ->; done.
Qed.

Lemma readline_blank b rest :
  no_newline b = true → readline (b +:+ rest) = b +:+ readline rest.
Proof.
  induction b as [|c b IH]; [done|]. cbn [no_newline].
  intros [Hc Hb]%andb_true_iff. apply negb_true_iff in Hc.
  rewrite !string_app_cons. cbn [readline]. by rewrite Hc, IH.
Qed.

Lemma rstrip_all_space t : all_space t = true → rstrip t = "".
Proof.
  induction t as [|c t IH]; [done|]. cbn [all_space rstrip].
  intros [Hc Ht]%andb_true_iff. by rewrite IH, Hc.
Qed.

Lemma rstrip_word w t :
  no_space w = true → all_space t = true → rstrip (w +:+ t) = w.
Proof.
  intros Hw Ht. induction w as [|c w IH].
  { by apply rstrip_all_space. }
  cbn [no_space] in Hw. apply andb_true_iff in Hw as [Hc Hw].
  apply negb_true_iff in Hc. rewrite string_app_cons. cbn [rstrip].
  rewrite (IH Hw), Hc. by destruct w.
Qed.

Lemma lstrip_blank_word b w t :
  all_space b = true → is_word w → lstrip (b +:+ w +:+ t) = w +:+ t.
Proof.
  intros Hb [Hne Hw]. induction b as [|c b IH].
  - rewrite string_app_nil_l. destruct w as [|c w]; [done|].
    cbn [no_space] in Hw. apply andb_true_iff in Hw as [Hc _].
    apply negb_true_iff in Hc. rewrite string_app_cons. cbn [lstrip].
    by rewrite Hc.
  - cbn [all_space] in Hb. apply andb_true_iff in Hb as [Hc Hb].
    rewrite string_app_cons. cbn [lstrip]. rewrite Hc. by apply IH.
Qed.

Lemma all_space_app a b :
  all_space a = true → all_space b = true → all_space (a +:+ b) = true.
Proof.
  intros Ha Hb. induction a as [|c a IH]; [done|].
  cbn [all_space] in Ha. apply andb_true_iff in Ha as [Hc Ha].
  rewrite string_app_cons. cbn [all_space]. rewrite Hc. by apply IH.
Qed.

Lemma get_branch_hash_first_line h before after tail :
  is_word h →
  all_space before = true → no_newline before = true →
  all_space after = true → no_newline after = true →
  readline tail = "" ∨ readline tail = String "010" "" →
  get_branch_hash (before +:+ h +:+ after +:+ tail) = h.
Proof.
  intros Hh Hb Hbn Ha Han Hrl. unfold get_branch_hash, strip.
  rewrite readline_blank by done.
  rewrite (readline_word h) by apply Hh.
  rewrite readline_blank by done.
  rewrite lstrip_blank_word by done.
  apply rstrip_word; [apply Hh|]. apply all_space_app; [done|].
  by destruct Hrl as [-> | ->].
Qed.

(** X16. Reading back a ref file.  If the first line of a branch file is an
    identifier without white space, possibly surrounded by blanks other than
    line ends, [get_branch_hash] returns that identifier, whatever follows
    the first line; in particular the file that holds the identifier
    followed by a line feed, as Git writes it, gives the identifier. *)
Theorem get_branch_hash_round_trip h before after rest :
  is_word h →
  all_space before = true → no_newline before = true →
  all_space after = true → no_newline after = true →
  get_branch_hash (before +:+ h +:+ after +:+ String "010" rest) = h
  ∧ get_branch_hash (before +:+ h +:+ after +:+ "") = h
  ∧ get_branch_hash (h +:+ String "010" rest) = h.
Proof.
  intros Hh Hb Hbn Ha Han. split; [|split].
  - apply get_branch_hash_first_line; try done. by right.
  - apply get_branch_hash_first_line; try done. by left.
  - apply (get_branch_hash_first_line h "" "" (String "010" rest));
      try done. by right.
Qed.

Lemma get_branch_hash_round_trip_witness :
  get_branch_hash (" " +:+ "m01" +:+ "  " +:+ String "010" "junk") = "m01"
  ∧ get_branch_hash (" " +:+ "m01" +:+ "  " +:+ "") = "m01"
  ∧ get_branch_hash ("m01" +:+ String "010" "junk") = "m01".
Proof.
  apply (get_branch_hash_round_trip "m01" " " "  " "junk");
    first [reflexivity | by split].
Defined.

Example get_branch_hash_empty : get_branch_hash "" = "".
Proof. reflexivity. Qed.

(** ** Branch names *)

Lemma no_slash_app_slash a b : no_slash (a +:+ "/" +:+ b) = false.
Proof.
  induction a as [|c a IH]; [done|]. rewrite string_app_cons.
  cbn [no_slash]. rewrite IH. apply andb_false_r.
Qed.

Lemma join_cons sep x y l :
  join sep (x :: y :: l) = x +:+ sep +:+ join sep (y :: l).
Proof. reflexivity. Qed.

Lemma join_names_nonempty x l : x ≠ "" → join "/" (x :: l) ≠ "".
Proof.
  intros Hx. destruct l as [|y l]; [done|]. rewrite join_cons.
  by intros [? _]%string_app_nil_inv.
Qed.

Lemma join_names_inj l1 : ∀ l2,
  Forall is_name l1 → Forall is_name l2 →
  join "/" l1 = join "/" l2 → l1 = l2.
Proof.
  induction l1 as [|x l1 IH]; intros [|y l2] H1 H2 Heq; [done| | |].
  - apply Forall_cons in H2 as [[Hy _] _].
    symmetry in Heq. by apply join_names_nonempty in Heq.
  - apply Forall_cons in H1 as [[Hx _] _].
    by apply join_names_nonempty in Heq.
  - apply Forall_cons in H1 as [[Hx Hxs] H1].
    apply Forall_cons in H2 as [[Hy Hys] H2].
    destruct l1 as [|x' l1], l2 as [|y' l2].
    + change (x = y) in Heq. by subst.
    + rewrite join_cons in Heq. change (join "/" [x]) with x in Heq.
      rewrite Heq, no_slash_app_slash in Hxs. done.
    + rewrite join_cons in Heq. change (join "/" [y]) with y in Heq.
      rewrite <-Heq, no_slash_app_slash in Hys. done.
    + rewrite !join_cons in Heq.
      apply split_at_slash in Heq as [-> Heq]; [|done..].
      f_equal. by apply IH.
Qed.

Lemma get_branches_names walk :
  (get_branches true walk).*1 = join "/" <$> walked_files walk.
Proof.
  unfold get_branches, walked_files.
  induction walk as [|[root files] walk IH]; [done|].
  cbn [flat_map]. rewrite !fmap_app, IH. f_equal.
  rewrite <-!list_fmap_compose. by apply list_fmap_ext.
Qed.

Lemma names_of_sublist c branches : names_of c branches `sublist_of` branches.*1.
Proof.
  unfold names_of. apply fmap_sublist, sublist_filter.
Qed.

(** X17. [get_branches] returns nothing when [refs/heads] is not a
    directory.  Otherwise it returns one pair per file of the walk, in the
    order of the walk; when the files are distinct and all names are file
    names (not empty, no slash), the branch names are pairwise distinct, so
    no branch name is listed twice on a commit line. *)
Theorem get_branches_names_distinct walk :
  Forall (λ rf, Forall is_name rf.1 ∧ Forall (λ fc, is_name fc.1) rf.2)
    walk →
  NoDup (walked_files walk) →
  get_branches false walk = []
  ∧ length (get_branches true walk) = length (walked_files walk)
  ∧ NoDup (get_branches true walk).*1
  ∧ ∀ c, NoDup (names_of c (get_branches true walk)).
Proof.
  intros Hvalid Hnd.
  assert (NoDup (get_branches true walk).*1) as Hnames.
  { rewrite get_branches_names. apply NoDup_fmap_2_strong; [|done].
    intros p1 p2 Hp1 Hp2. apply join_names_inj.
    - clear -Hvalid Hp1. unfold walked_files in Hp1.
      apply list_elem_of_In, in_flat_map in Hp1 as (rf & Hrf & Hin).
      apply list_elem_of_In in Hrf, Hin.
      rewrite Forall_forall in Hvalid. destruct (Hvalid rf Hrf) as [Hr Hf].
      apply list_elem_of_fmap in Hin as (fc & -> & Hfc).
      apply Forall_app. split; [done|]. apply Forall_singleton.
      rewrite Forall_forall in Hf. by apply Hf.
    - clear -Hvalid Hp2. unfold walked_files in Hp2.
      apply list_elem_of_In, in_flat_map in Hp2 as (rf & Hrf & Hin).
      apply list_elem_of_In in Hrf, Hin.
      rewrite Forall_forall in Hvalid. destruct (Hvalid rf Hrf) as [Hr Hf].
      apply list_elem_of_fmap in Hin as (fc & -> & Hfc).
      apply Forall_app. split; [done|]. apply Forall_singleton.
      rewrite Forall_forall in Hf. by apply Hf. }
  split; [done|]. split; [|split; [done|]].
  - rewrite <-(length_fmap fst (get_branches true walk)), get_branches_names.
    by rewrite length_fmap.
  - intros c. eapply sublist_NoDup; [done|apply names_of_sublist].
Qed.

Example heads_walk_branches :
  get_branches true heads_walk
  = [("main", "m01"); ("fix/one", "z01"); ("fix/two", "m01")].
Proof. reflexivity. Qed.

Lemma get_branches_names_distinct_witness :
  get_branches false heads_walk = []
  ∧ length (get_branches true heads_walk) = length (walked_files heads_walk)
  ∧ NoDup (get_branches true heads_walk).*1
  ∧ ∀ c, NoDup (names_of c (get_branches true heads_walk)).
Proof.
  apply (get_branches_names_distinct heads_walk).
  - repeat constructor; discriminate.
  - apply (bool_decide_unpack _). vm_compute. exact I.
Defined.
